(** * tslint-language-service: the plugin of out/src/index.js

    A shallow embedding of the language-service plugin that adds tslint
    failures to the diagnostics of the TypeScript language service and
    offers quick fixes for them.

    JavaScript values are modelled by the shapes the code distinguishes:
    - offsets and positions are integers ([Z]);
    - a JS [Map] is an association list kept in insertion order ([JsMap]),
      the outer registry, whose order is never observed, is a [gmap];
    - the plugin configuration block is a JS object read by property name
      ([gmap string JsValue], an absent property reads as [undefined]);
    - [try]/[catch]/[finally] and [return] inside them are completions
      ([Normal], [Return], [Throw]) threaded through a state monad over the
      mutable variables of [init] and [create] and the global
      [console.warn]. *)

From stdpp Require Import base option list strings pretty gmap sorting.
From Stdlib Require Import ZArith Lia Ascii.

Open Scope Z_scope.

(** ** Values thrown and caught *)

(** The [stack] of a thrown value: the text its thrower gave it, or, for
    an error that the runtime raises in the plugin's own code, the stack
    that the runtime computes at that place, which no text of the source
    determines. *)
Inductive Stack : Type :=
| StackText (text : string)
| RuntimeStack.
Coercion StackText : string >-> Stack.

(** What a [catch] clause can observe of a thrown value: [null] and
    [undefined] have no properties at all, anything else has a [message]
    that may or may not be a string, a [toString()] and a [stack]. *)
Inductive Exn : Type :=
| ThrownNullish
| ThrownValue (message : option string) (toString : string) (stack : Stack).

(** The [TypeError] of the runtime for reading a property of [null] or
    [undefined] or calling what is no function; [msg] names the error, the
    stack is the runtime's. *)
Definition TypeError (msg : string) : Exn :=
  ThrownValue (Some msg) ("TypeError: " +:+ msg) RuntimeStack.

(** Result of a piece of code that touches no mutable state. *)
Inductive Result (A : Type) : Type :=
| Ok (a : A)
| Threw (e : Exn).
Arguments Ok {A} a.
Arguments Threw {A} e.

Definition rbind {A B} (m : Result A) (k : A -> Result B) : Result B :=
  match m with
  | Ok a => k a
  | Threw e => Threw e
  end.

Notation "x <-r m ; k" := (rbind m (fun x => k))
  (at level 100, m at next level, right associativity, only parsing).

(** ** The linting engine's failures *)

Module Replacement.
(** A tslint [Replacement]: the code reads [start], [length], [text] and
    [end]. *)
Record t : Type := mk {
  start : Z;
  length : Z;
  text : string;
  end_ : Z
}.
End Replacement.

(** The historical shapes of a fix: tslint 4 has an object with a
    [replacements] array, tslint 5 a bare replacement or an array of
    them. *)
Inductive Fix : Type :=
| FixWithReplacements (replacements : list Replacement.t)
| FixArray (rs : list Replacement.t)
| FixSingle (r : Replacement.t).

Record Position : Type := {
  getPosition : Z;
  line : nat  (* getLineAndCharacter().line *)
}.

(** A tslint [RuleFailure], read through its accessor methods.
    [getFix = None] stands for a missing [getFix] method as well as for one
    returning [undefined]; [getRuleSeverity = None] for a missing method. *)
Record RuleFailure : Type := {
  getFileName : string;
  getRuleName : option string;
  getFailure : string;
  getRuleSeverity : option string;
  getStartPosition : Position;
  getEndPosition : Position;
  getFix : option Fix
}.

(** ** JS [Map] with string keys: insertion-ordered *)

Module JsMap.
Section ops.
Context {V : Type}.

Definition t := list (string * V).

Fixpoint get (k : string) (m : list (string * V)) : option V :=
  match m with
  | [] => None
  | (k', v) :: m' => if decide (k' = k) then Some v else get k m'
  end.

(** [set] on a present key keeps the key's position, on a fresh key it
    appends. *)
Fixpoint set (k : string) (v : V) (m : list (string * V)) : list (string * V) :=
  match m with
  | [] => [(k, v)]
  | (k', v') :: m' =>
      if decide (k' = k) then (k', v) :: m' else (k', v') :: set k v m'
  end.

Definition values (m : list (string * V)) : list V := m.*2.
End ops.
End JsMap.

(** ** Text changes handed to the host *)

Module TextSpan.
(** [start] is [None] for a JS [undefined] (an index past the line
    table). *)
Record t : Type := mk { start : option Z; length : Z }.
End TextSpan.

Record TextChange : Type := {
  newText : string;
  span : TextSpan.t
}.

Record FileTextChanges : Type := {
  fileName : string;
  textChanges : list TextChange
}.

Record CodeAction : Type := {
  description : string;
  changes : list FileTextChanges
}.

(** ** Fix synthesizer, the part without state *)

(** Template-literal rendering of [getRuleName()], which may be [null]. *)
Definition showRuleName (n : option string) : string :=
  match n with
  | Some s => s
  | None => "null"
  end.

Definition computeKey (start end_ : Z) : string :=
  "[" +:+ pretty start +:+ "," +:+ pretty end_ +:+ "]".

Definition replacementsAreEmpty (fix_ : Fix) : bool :=
  match fix_ with
  | FixWithReplacements rs => bool_decide (length rs = 0%nat)
  | FixArray rs => bool_decide (length rs = 0%nat)
  | FixSingle _ => false
  end.

Definition convertReplacementToTextChange (repl : Replacement.t) : TextChange :=
  {| newText := Replacement.text repl;
     span := TextSpan.mk (Some (Replacement.start repl)) (Replacement.length repl) |}.

Definition getReplacements (fix_ : Fix) : list Replacement.t :=
  match fix_ with
  | FixWithReplacements rs => rs
  | FixArray rs => rs
  | FixSingle r => [r]
  end.

(** [getReplacements(failure.getFix())]: reading [replacements] of an
    [undefined] fix throws. *)
Definition replacementsOf (failure : RuleFailure) : Result (list Replacement.t) :=
  match getFix failure with
  | Some fix_ => Ok (getReplacements fix_)
  | None => Threw (TypeError "Cannot read property 'replacements' of undefined")
  end.

Definition problemToFileTextChange (problem : RuleFailure) (fileName : string)
  : Result FileTextChanges :=
  replacements <-r replacementsOf problem;
  Ok {| fileName := fileName;
        textChanges := convertReplacementToTextChange <$> replacements |}.

(** [getReplacements(failure.getFix())[at]]: an index past the end reads
    as [undefined]. *)
Definition getReplacement (failure : RuleFailure) (at_ : nat)
  : Result (option Replacement.t) :=
  replacements <-r replacementsOf failure;
  Ok (replacements !! at_).

(** [getReplacement(failure, 0).start], as the sort's comparator reads it. *)
Definition firstStart (failure : RuleFailure) : Result Z :=
  first <-r getReplacement failure 0;
  match first with
  | Some r => Ok (Replacement.start r)
  | None => Threw (TypeError "Cannot read property 'start' of undefined")
  end.

(** [Array.prototype.sort] with the comparator [(a, b) => key a - key b]:
    stable (ECMAScript 2019), written as an insertion sort.  [a] goes before
    [b] when the comparator is not positive. *)
Section sort_by.
Context {A : Type} (key : A -> Z).

Fixpoint insert_by (a : A) (l : list A) : list A :=
  match l with
  | [] => [a]
  | b :: l' =>
      if bool_decide (key a - key b <= 0) then a :: b :: l'
      else b :: insert_by a l'
  end.

Definition sort_by (l : list A) : list A := foldr insert_by [] l.
End sort_by.

Fixpoint mapR {A B} (f : A -> Result B) (l : list A) : Result (list B) :=
  match l with
  | [] => Ok []
  | a :: l' => b <-r f a; bs <-r mapR f l'; Ok (b :: bs)
  end.

(** The comparator is called only for arrays of two or more elements, and
    then on each of them, so one failure without a first replacement makes
    the whole sort throw. *)
Definition sortFailures (failures : list RuleFailure) : Result (list RuleFailure) :=
  if bool_decide (length failures < 2)%nat then Ok failures
  else
    keyed <-r mapR (fun a => k <-r firstStart a; Ok (a, k)) failures;
    Ok (sort_by snd keyed).*1.

Definition overlaps (a b : Replacement.t) : bool :=
  bool_decide (Replacement.end_ a >= Replacement.start b).

(** The body of the [for] loop of [getNonOverlappingReplacements], from
    index [i] on; [rest] is [sortedFailures.slice(i)]. *)
Fixpoint nonOverlappingLoop (i : nat) (rest : list RuleFailure)
    (nonOverlapping : list Replacement.t) : Result (list Replacement.t) :=
  match rest with
  | [] => Ok nonOverlapping
  | failure :: rest' =>
      replacements <-r replacementsOf failure;
      push <-r
        (if bool_decide (i = 0%nat) then Ok true
         else
           match last nonOverlapping, head replacements with
           | Some a, Some b => Ok (negb (overlaps a b))
           | None, _ => Threw (TypeError "Cannot read property 'end' of undefined")
           | Some _, None => Threw (TypeError "Cannot read property 'start' of undefined")
           end);
      nonOverlappingLoop (S i) rest'
        (if push : bool then nonOverlapping ++ replacements else nonOverlapping)
  end.

Definition getNonOverlappingReplacements (documentFixes : list (string * RuleFailure))
  : Result (list Replacement.t) :=
  sortedFailures <-r sortFailures (JsMap.values documentFixes);
  nonOverlappingLoop 0 sortedFailures [].

Module SourceFile.
(** What the plugin reads of the host's source file object. *)
Record t : Type := mk {
  fileName : string;
  getLineStarts : list Z
}.
End SourceFile.

Definition addRuleFailureFix (fixes : list CodeAction) (problem : RuleFailure)
    (fileName : string) : Result (list CodeAction) :=
  change <-r problemToFileTextChange problem fileName;
  Ok (fixes ++ [ {| description := "Fix '" +:+ showRuleName (getRuleName problem) +:+ "'";
                    changes := [change] |} ]).

(** The [for ... of problems.values()] loop of [addRuleFailureFixAll]. *)
Fixpoint ruleFailureChanges (ruleName : option string) (problems : list RuleFailure)
    (fileName : string) (changes : list FileTextChanges) : Result (list FileTextChanges) :=
  match problems with
  | [] => Ok changes
  | problem :: rest =>
      if bool_decide (getRuleName problem = ruleName) then
        change <-r problemToFileTextChange problem fileName;
        ruleFailureChanges ruleName rest fileName (changes ++ [change])
      else ruleFailureChanges ruleName rest fileName changes
  end.

(** Generate a code action that fixes all instances of ruleName. *)
Definition addRuleFailureFixAll (fixes : list CodeAction) (ruleName : option string)
    (problems : list (string * RuleFailure)) (fileName : string)
  : Result (list CodeAction) :=
  changes <-r ruleFailureChanges ruleName (JsMap.values problems) fileName [];
  (* No need for this action if there's only one instance. *)
  if bool_decide (length changes < 2)%nat then Ok fixes
  else Ok (fixes ++ [ {| description := "Fix all '" +:+ showRuleName ruleName +:+ "'";
                         changes := changes |} ]).

(** The line feed of the JS escape [\n]. *)
Definition newline : string := String (Ascii.ascii_of_nat 10) EmptyString.

Definition addDisableRuleFix (fixes : list CodeAction) (problem : RuleFailure)
    (fileName : string) (file : option SourceFile.t) : Result (list CodeAction) :=
  match file with
  | None => Threw (TypeError "Cannot read property 'getLineStarts' of undefined")
  | Some file =>
      Ok (fixes ++ [ {|
        description := "Disable rule '" +:+ showRuleName (getRuleName problem) +:+ "'";
        changes := [ {|
          fileName := fileName;
          textChanges := [ {|
            newText := "// tslint:disable-next-line:"
                       +:+ showRuleName (getRuleName problem) +:+ newline;
            span := TextSpan.mk
                      (SourceFile.getLineStarts file !! line (getStartPosition problem)) 0
          |} ]
        |} ]
      |} ])
  end.

Definition addAllAutoFixable (fixes : list CodeAction)
    (documentFixes : list (string * RuleFailure)) (fileName : string)
  : Result (list CodeAction) :=
  allReplacements <-r getNonOverlappingReplacements documentFixes;
  Ok (fixes ++ [ {|
    description := "Fix all auto-fixable tslint failures";
    changes := [ {| fileName := fileName;
                    textChanges := convertReplacementToTextChange <$> allReplacements |} ]
  |} ]).

(** ** The plugin's configuration block and the engine's configuration *)

Inductive JsValue : Type :=
| JsUndefined
| JsNull
| JsBool (b : bool)
| JsNumber (n : Z)
| JsString (s : string).

Definition truthy (v : JsValue) : bool :=
  match v with
  | JsUndefined | JsNull => false
  | JsBool b => b
  | JsNumber n => negb (n =? 0)
  | JsString s => negb (bool_decide (s = ""))
  end.

(** [v === true] *)
Definition strictlyTrue (v : JsValue) : bool :=
  match v with
  | JsBool true => true
  | _ => false
  end.

(** [config.name]: a property that is not there reads as [undefined]. *)
Definition prop (config : gmap string JsValue) (name : string) : JsValue :=
  default JsUndefined (config !! name).

(** A rule set of a tslint configuration: a [Map] since tslint 5, a plain
    object before, or not there. *)
Inductive RulesContainer : Type :=
| RulesUndefined
| RulesMap (m : gmap string JsValue)
| RulesObject (o : gmap string JsValue).

Record LinterOptions : Type := {
  exclude : option (list string)
}.

Record Configuration : Type := {
  rules : RulesContainer;
  jsRules : RulesContainer;
  linterOptions : option LinterOptions
}.

Module ConfigurationLoadResult.
Record t : Type := mk {
  error : option Exn;
  results : option Configuration;
  path : option string
}.
End ConfigurationLoadResult.

Module ConfigCache.
Record t : Type := mk {
  filePath : option string;
  configuration : option Configuration;
  isDefaultConfig : bool;
  configFilePath : option string
}.
End ConfigCache.

Record LintResult : Type := {
  failures : list RuleFailure
}.

(** ** Diagnostics *)

Inductive DiagnosticCategory : Type :=
| Warning
| Error
| Suggestion
| Message.

Module Diagnostic.
Record t : Type := mk {
  file : option SourceFile.t;
  start : Z;
  length : Z;
  messageText : string;
  category : DiagnosticCategory;
  source : option string;
  code : Z
}.
End Diagnostic.

Definition TSLINT_ERROR_CODE : Z := 100000.

(** ** The two collaborators *)

(** The linting engine with the two modules the plugin calls next to it
    ([minimatch], [path]).  A call either returns or throws; a lint run also
    yields the warnings the engine writes with [console.warn] on its way. *)
Record Engine : Type := {
  findConfigurationPath : JsValue -> string -> Result (option string);
  findConfiguration : JsValue -> string -> Result ConfigurationLoadResult.t;
  lint : string -> option Configuration -> list string * Result LintResult;
  minimatch : string -> string -> bool;
  normalize : string -> string
}.

(** The host process: the language service being decorated ([oldLS]), and
    the stack text that its runtime gives to an error raised in the plugin's
    own code, by the description ([toString()]) of the error. *)
Record Host : Type := {
  oldGetSemanticDiagnostics : string -> list Diagnostic.t;
  oldGetCodeFixesAtPosition : string -> Z -> Z -> list Z -> list CodeAction;
  getSourceFile : string -> option SourceFile.t;
  runtimeStack : string -> string
}.

(** [e.stack] as a string. *)
Definition stackText (host : Host) (toString : string) (stack : Stack) : string :=
  match stack with
  | StackText text => text
  | RuntimeStack => runtimeStack host toString
  end.

(** ** Mutable state *)

(** The function bound to [console.warn]: the plugin's [captureWarnings] or
    some function of the host process. *)
Inductive WarnSink : Type :=
| sinkHost (id : nat)
| sinkCaptureWarnings.

(** Calls made to the linting engine, in order. *)
Inductive EngineEvent : Type :=
| CalledFindConfigurationPath (configFileName : JsValue) (filePath : string)
| CalledFindConfiguration (configFileName : JsValue) (filePath : string)
| CalledLint (fileName : string) (configuration : option Configuration)
    (outcome : Result LintResult).

Record World : Type := mkWorld {
  codeFixActions : gmap string (list (string * RuleFailure));
  configCache : ConfigCache.t;
  configuration : option Configuration;
  console_warn : WarnSink;
  logger : list string;               (* lines written with logger.info *)
  hostConsole : list (nat * string);  (* warnings that reached a host sink *)
  engineCalls : list EngineEvent
}.

Definition initialWorld (warn : WarnSink) : World :=
  {| codeFixActions := ∅;
     configCache := ConfigCache.mk None None false None;
     configuration := None;
     console_warn := warn;
     logger := [];
     hostConsole := [];
     engineCalls := [] |}.

(** ** Completions and the state monad *)

Inductive Completion (R A : Type) : Type :=
| Normal (a : A)
| Return (r : R)
| Throw (e : Exn).
Arguments Normal {R A} a.
Arguments Return {R A} r.
Arguments Throw {R A} e.

Definition M (R A : Type) : Type := World -> Completion R A * World.

Definition ret {R A} (a : A) : M R A := fun w => (Normal a, w).

Definition bind {R A B} (m : M R A) (k : A -> M R B) : M R B :=
  fun w =>
    match m w with
    | (Normal a, w') => k a w'
    | (Return r, w') => (Return r, w')
    | (Throw e, w') => (Throw e, w')
    end.

Notation "x <- m ;; k" := (bind m (fun x => k))
  (at level 100, m at next level, right associativity, only parsing).
Notation "m ;; k" := (bind m (fun _ => k))
  (at level 100, right associativity, only parsing).

Definition return_ {R A} (r : R) : M R A := fun w => (Return r, w).
Definition throw {R A} (e : Exn) : M R A := fun w => (Throw e, w).
Definition gets {R A} (f : World -> A) : M R A := fun w => (Normal (f w), w).
Definition modify {R} (f : World -> World) : M R unit := fun w => (Normal tt, f w).

Definition liftR {R A} (r : Result A) : M R A :=
  match r with
  | Ok a => ret a
  | Threw e => throw e
  end.

(** [try { body } catch (e) { handler }] *)
Definition try_catch {R A} (body : M R A) (handler : Exn -> M R A) : M R A :=
  fun w =>
    match body w with
    | (Throw e, w') => handler e w'
    | other => other
    end.

(** [try { body } finally { fin }]: [fin] runs on every completion of
    [body], whose completion is then resumed unless [fin] is itself
    abrupt. *)
Definition try_finally {R A} (body : M R A) (fin : M R unit) : M R A :=
  fun w =>
    let '(c, w') := body w in
    match fin w' with
    | (Normal _, w'') => (c, w'')
    | (Return r, w'') => (Return r, w'')
    | (Throw e, w'') => (Throw e, w'')
    end.

(** A function call: the body's [return] or its last value is the call's
    value, a [throw] leaves the call. *)
Definition call {R} (body : M R R) (w : World) : Result R * World :=
  match body w with
  | (Normal r, w') => (Ok r, w')
  | (Return r, w') => (Ok r, w')
  | (Throw e, w') => (Threw e, w')
  end.

(** Assignments to the mutable variables. *)
Definition set_codeFixActions (v : gmap string (list (string * RuleFailure))) (w : World) : World :=
  mkWorld v (configCache w) (configuration w) (console_warn w) (logger w)
          (hostConsole w) (engineCalls w).
Definition set_configCache (v : ConfigCache.t) (w : World) : World :=
  mkWorld (codeFixActions w) v (configuration w) (console_warn w) (logger w)
          (hostConsole w) (engineCalls w).
Definition set_configuration (v : option Configuration) (w : World) : World :=
  mkWorld (codeFixActions w) (configCache w) v (console_warn w) (logger w)
          (hostConsole w) (engineCalls w).
Definition set_console_warn (v : WarnSink) (w : World) : World :=
  mkWorld (codeFixActions w) (configCache w) (configuration w) v (logger w)
          (hostConsole w) (engineCalls w).
Definition add_logger (l : string) (w : World) : World :=
  mkWorld (codeFixActions w) (configCache w) (configuration w) (console_warn w)
          (logger w ++ [l]) (hostConsole w) (engineCalls w).
Definition add_hostConsole (id : nat) (l : string) (w : World) : World :=
  mkWorld (codeFixActions w) (configCache w) (configuration w) (console_warn w)
          (logger w) (hostConsole w ++ [(id, l)]) (engineCalls w).
Definition add_engineCall (ev : EngineEvent) (w : World) : World :=
  mkWorld (codeFixActions w) (configCache w) (configuration w) (console_warn w)
          (logger w) (hostConsole w) (engineCalls w ++ [ev]).

(** [info.project.projectService.logger.info(line)] *)
Definition logger_info {R} (l : string) : M R unit := modify (add_logger l).

Definition captureWarnings {R} (message : string) : M R unit :=
  logger_info ("[tslint] " +:+ message).

(** [console.warn(message)], whatever is bound to it at the time. *)
Definition console_warn_call {R} (message : string) : M R unit :=
  fun w =>
    match console_warn w with
    | sinkCaptureWarnings => captureWarnings message w
    | sinkHost id => (Normal tt, add_hostConsole id message w)
    end.

Fixpoint forEach {R A} (f : A -> M R unit) (l : list A) : M R unit :=
  match l with
  | [] => ret tt
  | a :: l' => f a ;; forEach f l'
  end.

Definition endsWith (s suffix : string) : bool :=
  String.prefix (String.rev suffix) (String.rev s).

Definition getConfigurationFailureMessage (err : Exn) : Result string :=
  match err with
  | ThrownNullish => Threw (TypeError "Cannot read property 'message' of null")
  | ThrownValue message _ _ =>
      Ok ("tslint: Cannot read tslint configuration - '"
          +:+ default "unknown error" message +:+ "'")
  end.

(** [rules.delete('no-unused-variable')] behind the guard
    [rules && rules instanceof Map]. *)
Definition deleteNoUnusedVariable (c : RulesContainer) : RulesContainer :=
  match c with
  | RulesMap m => RulesMap (delete "no-unused-variable" m)
  | RulesObject o => RulesObject o
  | RulesUndefined => RulesUndefined
  end.

(** Filter failures for the given document.  [normalizedFiles] is the memo
    table of normalized names the source keeps while filtering. *)
Fixpoint filterLoop (normalize : string -> string) (normalizedPath : string)
    (normalizedFiles : gmap string string) (failures : list RuleFailure)
  : list RuleFailure :=
  match failures with
  | [] => []
  | each :: rest =>
      let fileName := getFileName each in
      let normalizedFiles' :=
        match normalizedFiles !! fileName with
        | Some _ => normalizedFiles
        | None => <[fileName := normalize fileName]> normalizedFiles
        end in
      if bool_decide (normalizedFiles' !! fileName = Some normalizedPath)
      then each :: filterLoop normalize normalizedPath normalizedFiles' rest
      else filterLoop normalize normalizedPath normalizedFiles' rest
  end.

Section Plugin.
(** [info.config], the decorated language service and the engine. *)
Context (config : gmap string JsValue) (oldLS : Host) (tslint : Engine).

Definition makeDiagnostic (problem : RuleFailure) (file : option SourceFile.t)
  : Diagnostic.t :=
  let message :=
    match getRuleName problem with
    | Some ruleName => getFailure problem +:+ " (" +:+ ruleName +:+ ")"
    | None => getFailure problem
    end in
  let category :=
    match prop config "alwaysShowRuleFailuresAsWarnings" with
    | JsBool true => Warning
    | _ =>
        match getRuleSeverity problem with
        | Some "error" => Error  (* tslint5 supports to assign severities to rules *)
        | _ => Warning
        end
    end in
  {| Diagnostic.file := file;
     Diagnostic.start := getPosition (getStartPosition problem);
     Diagnostic.length := getPosition (getEndPosition problem)
                          - getPosition (getStartPosition problem);
     Diagnostic.messageText := message;
     Diagnostic.category := category;
     Diagnostic.source := Some "tslint";
     Diagnostic.code := TSLINT_ERROR_CODE |}.

Definition filterProblemsForDocument (documentPath : string)
    (failures : list RuleFailure) : list RuleFailure :=
  filterLoop (normalize tslint) (normalize tslint documentPath) ∅ failures.

Definition recordCodeAction {R} (problem : RuleFailure) (file : option SourceFile.t)
  : M R unit :=
  (* tslint can return a fix with an empty replacements array, these fixes
     are ignored *)
  let fix_ :=
    match getFix problem with
    | Some f => if replacementsAreEmpty f then None else Some f
    | None => None
    end in
  match fix_ with
  | None => ret tt
  | Some _ =>
      match file with
      | None => throw (TypeError "Cannot read property 'fileName' of undefined")
      | Some file =>
          actions <- gets codeFixActions ;;
          let documentAutoFixes := default [] (actions !! SourceFile.fileName file) in
          modify (set_codeFixActions
            (<[SourceFile.fileName file :=
                 JsMap.set (computeKey (getPosition (getStartPosition problem))
                                       (getPosition (getEndPosition problem)))
                           problem documentAutoFixes]> actions))
      end
  end.

Definition getConfiguration {R} (filePath : string) (configFileName : JsValue)
  : M R (option Configuration) :=
  cache <- gets configCache ;;
  if bool_decide (is_Some (ConfigCache.configuration cache))
     && bool_decide (ConfigCache.filePath cache = Some filePath)
  then ret (ConfigCache.configuration cache)
  else
    modify (add_engineCall (CalledFindConfigurationPath configFileName filePath)) ;;
    foundPath <- liftR (findConfigurationPath tslint configFileName filePath) ;;
    let isDefaultConfig := bool_decide (foundPath = None) in
    modify (add_engineCall (CalledFindConfiguration configFileName filePath)) ;;
    configurationResult <- liftR (findConfiguration tslint configFileName filePath) ;;
    match ConfigurationLoadResult.error configurationResult with
    | Some (ThrownValue m s st) => throw (ThrownValue m s st)
    | _ =>
        let configuration := ConfigurationLoadResult.results configurationResult in
        configuration <-
          (match prop config "disableNoUnusedVariableRule" with
           | JsBool true | JsUndefined =>
               match configuration with
               | None => throw (TypeError "Cannot read property 'rules' of undefined")
               | Some c =>
                   ret (Some {| rules := deleteNoUnusedVariable (rules c);
                                jsRules := deleteNoUnusedVariable (jsRules c);
                                linterOptions := linterOptions c |})
               end
           | _ => ret configuration
           end) ;;
        modify (set_configCache
          {| ConfigCache.filePath := Some filePath;
             ConfigCache.isDefaultConfig := isDefaultConfig;
             ConfigCache.configuration := configuration;
             ConfigCache.configFilePath := ConfigurationLoadResult.path configurationResult |}) ;;
        ret configuration
    end.

(** The [catch] clause around the lint run and the one around the whole
    augmentation read properties of the caught value, which throws in
    turn when that value is [null] or [undefined]. *)
Definition lintErrorMessage (err : Exn) : Result string :=
  match err with
  | ThrownNullish => Threw (TypeError "Cannot read property 'message' of null")
  | ThrownValue message _ _ => Ok (default "unknown error" message)
  end.

Definition logServiceError {R} (e : Exn) : M R unit :=
  match e with
  | ThrownNullish => throw (TypeError "Cannot read property 'toString' of null")
  | ThrownValue _ toString stack =>
      logger_info ("tslint-language service error: " +:+ toString) ;;
      logger_info ("Stack trace: " +:+ stackText oldLS toString stack)
  end.

(** [new tslint.Linter(options, program)], [linter.lint(fileName, "",
    configuration)] and [linter.getResult()], with the engine's warnings
    going to whatever [console.warn] is at the time. *)
Definition runLinter {R} (fileName : string) : M R LintResult :=
  configuration <- gets configuration ;;
  let '(warnings, outcome) := lint tslint fileName configuration in
  modify (add_engineCall (CalledLint fileName configuration outcome)) ;;
  forEach console_warn_call warnings ;;
  liftR outcome.

(** [tslintProblems.forEach(problem => { diagnostics.push(...);
    recordCodeAction(problem, file); })] *)
Fixpoint pushDiagnostics {R} (file : option SourceFile.t)
    (tslintProblems : list RuleFailure) (diagnostics : list Diagnostic.t)
  : M R (list Diagnostic.t) :=
  match tslintProblems with
  | [] => ret diagnostics
  | problem :: rest =>
      let diagnostics := diagnostics ++ [makeDiagnostic problem file] in
      recordCodeAction problem file ;;
      pushDiagnostics file rest diagnostics
  end.

(** The three blocks of [proxy.getSemanticDiagnostics] inside its outer
    [try]: the [try]/[catch] that resolves the configuration and checks
    the exclusion patterns, the [try]/[catch]/[finally] around the lint
    run with [console.warn] redirected, and the block that turns the
    failures into diagnostics. *)
Definition resolveConfiguration (fileName : string) (prior : list Diagnostic.t)
  : M (list Diagnostic.t) unit :=
  try_catch
    (configuration <- getConfiguration fileName (prop config "configFile") ;;
     modify (set_configuration configuration) ;;
     match configuration with
     | None => throw (TypeError "Cannot read property 'linterOptions' of undefined")
     | Some c =>
         match linterOptions c with
         | Some {| exclude := Some patterns |} =>
             if existsb (fun pattern => minimatch tslint pattern fileName) patterns
             then return_ prior else ret tt
         | _ => ret tt
         end
     end)
    (fun err =>
       message <- liftR (getConfigurationFailureMessage err) ;;
       logger_info message ;;
       return_ prior).

Definition lintFile (fileName : string) (prior : list Diagnostic.t)
  : M (list Diagnostic.t) LintResult :=
  (* tslint writes warning messages using console.warn();
     capture the warnings and write them to the tslint plugin log *)
  warn <- gets console_warn ;;
  modify (set_console_warn sinkCaptureWarnings) ;;
  try_finally
    (try_catch (* protect against tslint crashes *)
       (runLinter fileName)
       (fun err =>
          errorMessage <- liftR (lintErrorMessage err) ;;
          logger_info ("tslint error " +:+ errorMessage) ;;
          return_ prior))
    (modify (set_console_warn warn)).

Definition reportFailures (fileName : string) (prior : list Diagnostic.t)
    (result : LintResult) : M (list Diagnostic.t) unit :=
  if bool_decide (0 < length (failures result))%nat then
    let tslintProblems := filterProblemsForDocument fileName (failures result) in
    if bool_decide (0 < length tslintProblems)%nat then
      let file := getSourceFile oldLS fileName in
      diagnostics <- pushDiagnostics file tslintProblems prior ;;
      return_ diagnostics
    else ret tt
  else ret tt.

Definition getSemanticDiagnostics_body (fileName : string)
  : M (list Diagnostic.t) (list Diagnostic.t) :=
  let prior := oldGetSemanticDiagnostics oldLS fileName in
  if truthy (prop config "supressWhileTypeErrorsPresent")
     && bool_decide (0 < length prior)%nat
  then return_ prior
  else
    try_catch
      (logger_info "Computing tslint semantic diagnostics..." ;;
       actions <- gets codeFixActions ;;
       (if bool_decide (is_Some (actions !! fileName))
        then modify (set_codeFixActions (delete fileName actions))
        else ret tt) ;;
       (if strictlyTrue (prop config "ignoreDefinitionFiles")
           && endsWith fileName ".d.ts"
        then return_ prior else ret tt) ;;
       resolveConfiguration fileName prior ;;
       result <- lintFile fileName prior ;;
       reportFailures fileName prior result)
      logServiceError ;;
    ret prior.

Definition getSemanticDiagnostics (fileName : string) (w : World)
  : Result (list Diagnostic.t) * World :=
  call (getSemanticDiagnostics_body fileName) w.

(** The Open Configuration code action is disabled since there is no
    specified API to open an editor. *)
Definition addOpenConfigurationFix (cache : ConfigCache.t) (fixes : list CodeAction)
  : list CodeAction :=
  let openConfigFixEnabled := false in
  if openConfigFixEnabled then
    match ConfigCache.configFilePath cache with
    | Some configFilePath =>
        fixes ++ [ {| description := "Open tslint.json";
                      changes := [ {| fileName := configFilePath;
                                      textChanges := [] |} ] |} ]
    | None => fixes
    end
  else fixes.

(** ["..." + errorCodes[0]] *)
Definition showErrorCode (errorCodes : list Z) : string :=
  match head errorCodes with
  | Some c => pretty c
  | None => "undefined"
  end.

Definition getCodeFixesAtPosition_body (fileName : string) (start end_ : Z)
    (errorCodes : list Z) : M (list CodeAction) (list CodeAction) :=
  let prior := oldGetCodeFixesAtPosition oldLS fileName start end_ errorCodes in
  if truthy (prop config "supressWhileTypeErrorsPresent")
     && bool_decide (0 < length prior)%nat
  then return_ prior
  else
    logger_info ("tslint-language-service getCodeFixes " +:+ showErrorCode errorCodes) ;;
    actions <- gets codeFixActions ;;
    match actions !! fileName with
    | Some documentFixes =>
        let fixes := prior in
        let problem := JsMap.get (computeKey start end_) documentFixes in
        fixes <-
          (match problem with
           | Some problem =>
               fixes <- liftR (addRuleFailureFix fixes problem fileName) ;;
               liftR (addRuleFailureFixAll fixes (getRuleName problem)
                                           documentFixes fileName)
           | None => ret fixes
           end) ;;
        fixes <- liftR (addAllAutoFixable fixes documentFixes fileName) ;;
        fixes <-
          (match problem with
           | Some problem =>
               cache <- gets configCache ;;
               let fixes := addOpenConfigurationFix cache fixes in
               liftR (addDisableRuleFix fixes problem fileName
                                        (getSourceFile oldLS fileName))
           | None => ret fixes
           end) ;;
        return_ fixes
    | None => ret prior
    end.

Definition getCodeFixesAtPosition (fileName : string) (start end_ : Z)
    (errorCodes : list Z) (w : World) : Result (list CodeAction) * World :=
  call (getCodeFixesAtPosition_body fileName start end_ errorCodes) w.
End Plugin.

(** ** The overlap resolution in the words of its description *)

(** The replacements a recorded failure carries, and the start offset of
    the first of them. *)
Definition fixReplacements (failure : RuleFailure) : list Replacement.t :=
  match getFix failure with
  | Some f => getReplacements f
  | None => []
  end.

Definition firstReplacementStart (failure : RuleFailure) : Z :=
  match head (fixReplacements failure) with
  | Some r => Replacement.start r
  | None => 0
  end.

(** A failure is recorded only with a fix that has replacements. *)
Definition hasFix (failure : RuleFailure) : bool :=
  match getFix failure with
  | Some f => negb (replacementsAreEmpty f)
  | None => false
  end.

(** The first replacement starts at or before the end of the last
    replacement selected so far. *)
Definition touchesLast (selected rs : list Replacement.t) : bool :=
  match last selected, head rs with
  | Some a, Some b => bool_decide (Replacement.start b <= Replacement.end_ a)
  | _, _ => false
  end.

(** Drop the whole failure, or append all of its replacements. *)
Definition selectStep (selected rs : list Replacement.t) : list Replacement.t :=
  if touchesLast selected rs then selected else selected ++ rs.

Definition selectNonOverlapping (fixes : list (list Replacement.t)) : list Replacement.t :=
  foldl selectStep [] fixes.

(** What the plugin log ends with after a crash of the engine.  The
    [catch] around the lint run writes one line with the message of the
    thrown value.  When that value is [null] or [undefined] it has no
    message to read: the [catch] runs into an error of its own, and the
    [catch] around the whole operation writes two lines about this error,
    its description and the stack that the runtime gave it. *)
Definition endsWithCrashReport (host : Host) (e : Exn) (log : list string) : Prop :=
  match e with
  | ThrownValue message _ _ =>
      last log = Some ("tslint error " +:+ default "unknown error" message)
  | ThrownNullish =>
      ∃ description,
        [ "tslint-language service error: " +:+ description;
          "Stack trace: " +:+ runtimeStack host description ] `suffix_of` log
  end.

Definition registry_ok (actions : gmap string (list (string * RuleFailure))) : Prop :=
  ∀ file documentFixes,
    actions !! file = Some documentFixes →
    Forall (λ kv, hasFix kv.2 = true) documentFixes.

(** ** The configuration lookup and the fix actions in the words of their
    description *)

(** The cached file path equals the queried one and a cached configuration
    is present. *)
Definition cacheHit (cache : ConfigCache.t) (filePath : string) : bool :=
  bool_decide (ConfigCache.filePath cache = Some filePath)
  && bool_decide (is_Some (ConfigCache.configuration cache)).

(** The caller has not opted out of the removal of 'no-unused-variable':
    [disableNoUnusedVariableRule] is [true] or not given. *)
Definition removalEnabled (config : gmap string JsValue) : bool :=
  match prop config "disableNoUnusedVariableRule" with
  | JsBool true | JsUndefined => true
  | _ => false
  end.

(** [after] is [before] without 'no-unused-variable', all other rules
    kept, when the rule set is a [Map]; any other rule set is as before. *)
Definition withoutNoUnusedVariable (before after : RulesContainer) : Prop :=
  match before with
  | RulesMap m =>
      ∃ m', after = RulesMap m'
            ∧ m' !! "no-unused-variable" = None
            ∧ ∀ name, name ≠ "no-unused-variable" → m' !! name = m !! name
  | _ => after = before
  end.

Definition fileChange (problem : RuleFailure) (fileName : string) : FileTextChanges :=
  {| fileName := fileName;
     textChanges := convertReplacementToTextChange <$> fixReplacements problem |}.

(** Action 1, the failure's own fix. *)
Definition singleFix (problem : RuleFailure) (fileName : string) : CodeAction :=
  {| description := "Fix '" +:+ showRuleName (getRuleName problem) +:+ "'";
     changes := [fileChange problem fileName] |}.

(** Action 2, offered for two or more recorded failures of the rule: one
    change per failure, in the order of the registry. *)
Definition sameRule (ruleName : option string) (documentFixes : list (string * RuleFailure))
  : list RuleFailure :=
  filter (λ problem, getRuleName problem = ruleName) (JsMap.values documentFixes).

Definition fixAllOfRule (ruleName : option string)
    (documentFixes : list (string * RuleFailure)) (fileName : string) : list CodeAction :=
  if bool_decide (2 ≤ length (sameRule ruleName documentFixes))%nat
  then [ {| description := "Fix all '" +:+ showRuleName ruleName +:+ "'";
            changes := (λ problem, fileChange problem fileName)
                       <$> sameRule ruleName documentFixes |} ]
  else [].

(** Action 3, the overlap resolution over every recorded failure. *)
Definition fixAllAutoFixable (documentFixes : list (string * RuleFailure))
    (fileName : string) : CodeAction :=
  {| description := "Fix all auto-fixable tslint failures";
     changes := [ {|
       fileName := fileName;
       textChanges :=
         convertReplacementToTextChange
         <$> selectNonOverlapping
               (fixReplacements
                <$> sort_by firstReplacementStart (JsMap.values documentFixes)) |} ] |}.

(** Action 4, a disabling comment before the line of the failure. *)
Definition disableRuleOnLine (problem : RuleFailure) (fileName : string)
    (file : SourceFile.t) : CodeAction :=
  {| description := "Disable rule '" +:+ showRuleName (getRuleName problem) +:+ "'";
     changes := [ {|
       fileName := fileName;
       textChanges := [ {|
         newText := "// tslint:disable-next-line:"
                    +:+ showRuleName (getRuleName problem) +:+ newline;
         span := TextSpan.mk
                   (SourceFile.getLineStarts file !! line (getStartPosition problem)) 0 |} ]
     |} ] |}.

(** The options that the two operations read from the configuration
    block, and two blocks that agree on them. *)
Definition optionsRead : list string :=
  [ "supressWhileTypeErrorsPresent"; "ignoreDefinitionFiles"; "configFile";
    "disableNoUnusedVariableRule"; "alwaysShowRuleFailuresAsWarnings" ].

Definition sameOptions (config config' : gmap string JsValue) : Prop :=
  Forall (λ name, prop config name = prop config' name) optionsRead.

(** The events that are lint runs, and the completions that throw a
    [TypeError] of the plugin's own making. *)
Definition isLintCall (ev : EngineEvent) : Prop :=
  match ev with
  | CalledLint _ _ _ => True
  | _ => False
  end.

Definition thrownTypeError {R A} (c : Completion R A) : Prop :=
  ∃ msg, c = Throw (TypeError msg).

(** ** Sample data *)

Definition replacementAt (start end_ : Z) (text : string) : Replacement.t :=
  Replacement.mk start (end_ - start) text end_.

Definition failureAt (file : string) (rule : string) (start end_ : Z)
    (fix_ : option Fix) : RuleFailure :=
  {| getFileName := file;
     getRuleName := Some rule;
     getFailure := "failure of " +:+ rule;
     getRuleSeverity := Some "error";
     getStartPosition := {| getPosition := start; line := 0 |};
     getEndPosition := {| getPosition := end_; line := 0 |};
     getFix := fix_ |}.

(** Three failures whose single replacements span [0,5], [3,8] and
    [10,12]. *)
Definition r_0_5 : Replacement.t := replacementAt 0 5 "a".
Definition r_3_8 : Replacement.t := replacementAt 3 8 "b".
Definition r_10_12 : Replacement.t := replacementAt 10 12 "c".

Definition threeFailures : list (string * RuleFailure) :=
  [ (computeKey 0 5, failureAt "a.ts" "semicolon" 0 5 (Some (FixArray [r_0_5])));
    (computeKey 3 8, failureAt "a.ts" "quotemark" 3 8 (Some (FixSingle r_3_8)));
    (computeKey 10 12,
     failureAt "a.ts" "semicolon" 10 12 (Some (FixWithReplacements [r_10_12]))) ].

(** A host with one type error in [a.ts], and engines that report given
    failures, crash, or can load the configuration of [a.ts] only. *)
Definition sampleSource : SourceFile.t := SourceFile.mk "a.ts" [0; 20; 40].

Definition typeError : Diagnostic.t :=
  {| Diagnostic.file := Some sampleSource;
     Diagnostic.start := 1;
     Diagnostic.length := 2;
     Diagnostic.messageText := "Type 'string' is not assignable to type 'number'.";
     Diagnostic.category := Error;
     Diagnostic.source := None;
     Diagnostic.code := 2322 |}.

Definition sampleHost (prior : list Diagnostic.t) : Host :=
  {| oldGetSemanticDiagnostics := λ _, prior;
     oldGetCodeFixesAtPosition := λ _ _ _ _, [];
     getSourceFile := λ f, if decide (f = "a.ts") then Some sampleSource else None;
     runtimeStack := λ description,
       description +:+ newline +:+ "    at proxy.getSemanticDiagnostics (index.js)" |}.


Definition sampleConfiguration : Configuration :=
  {| rules := RulesMap {[ "no-unused-variable" := JsBool true ]};
     jsRules := RulesObject {[ "no-unused-variable" := JsBool true ]};
     linterOptions := None |}.

Definition reportingEngine (found : list RuleFailure) : Engine :=
  {| findConfigurationPath := λ _ _, Ok (Some "tslint.json");
     findConfiguration := λ _ _,
       Ok (ConfigurationLoadResult.mk None (Some sampleConfiguration) (Some "tslint.json"));
     lint := λ _ _, (["rule is deprecated"], Ok {| failures := found |});
     minimatch := λ _ _, false;
     normalize := λ p, p |}.

Definition crashingEngine : Engine :=
  {| findConfigurationPath := λ _ _, Ok (Some "tslint.json");
     findConfiguration := λ _ _,
       Ok (ConfigurationLoadResult.mk None (Some sampleConfiguration) (Some "tslint.json"));
     lint := λ _ _,
       (["rule is deprecated"], Threw (ThrownValue (Some "boom") "Error: boom" "at lint"));
     minimatch := λ _ _, false;
     normalize := λ p, p |}.

(** An engine whose lint run throws [null]. *)
Definition nullThrowingEngine : Engine :=
  {| findConfigurationPath := λ _ _, Ok (Some "tslint.json");
     findConfiguration := λ _ _,
       Ok (ConfigurationLoadResult.mk None (Some sampleConfiguration) (Some "tslint.json"));
     lint := λ _ _, ([], Threw ThrownNullish);
     minimatch := λ _ _, false;
     normalize := λ p, p |}.

Definition brokenConfigEngine : Engine :=
  {| findConfigurationPath := λ _ _, Ok (Some "tslint.json");
     findConfiguration := λ _ filePath,
       if decide (filePath = "a.ts")
       then Ok (ConfigurationLoadResult.mk None (Some sampleConfiguration)
                                           (Some "tslint.json"))
       else Threw (ThrownValue (Some "invalid JSON") "FatalError: invalid JSON" "");
     lint := λ _ _, ([], Ok {| failures := [] |});
     minimatch := λ _ _, false;
     normalize := λ p, p |}.

Definition fixableFailure : RuleFailure :=
  failureAt "a.ts" "semicolon" 10 12 (Some (FixArray [replacementAt 12 12 ";"])).

Definition unfixableFailure : RuleFailure :=
  failureAt "a.ts" "no-any" 0 5 None.

(** A failure without a fix at the span of [fixableFailure]. *)
Definition unfixableAtSemicolon : RuleFailure :=
  failureAt "a.ts" "no-any" 10 12 None.

Definition otherFileFailure : RuleFailure :=
  failureAt "b.ts" "semicolon" 3 4 (Some (FixArray [replacementAt 4 4 ";"])).

(** The two spellings of the suppression option: the one the plugin
    reads and the one with a double p. *)
Definition supressConfig : gmap string JsValue :=
  {[ "supressWhileTypeErrorsPresent" := JsBool true ]}.

Definition suppressConfig : gmap string JsValue :=
  {[ "suppressWhileTypeErrorsPresent" := JsBool true ]}.

Definition secondSemicolon : RuleFailure :=
  failureAt "a.ts" "semicolon" 30 32 (Some (FixSingle (replacementAt 32 32 ";"))).

(** The state after one diagnostics pass over [a.ts] in which the engine
    reported [found]. *)
Definition lintedWorld (found : list RuleFailure) : World :=
  (getSemanticDiagnostics ∅ (sampleHost []) (reportingEngine found) "a.ts"
     (initialWorld (sinkHost 0))).2.

(** A configuration that excludes the generated files, and an engine that
    finds it; its glob matcher knows this one pattern. *)
Definition excludingConfiguration : Configuration :=
  {| rules := RulesMap ∅;
     jsRules := RulesMap ∅;
     linterOptions := Some {| exclude := Some ["*.gen.ts"] |} |}.

Definition excludingEngine (found : list RuleFailure) : Engine :=
  {| findConfigurationPath := λ _ _, Ok (Some "tslint.json");
     findConfiguration := λ _ _,
       Ok (ConfigurationLoadResult.mk None (Some excludingConfiguration)
                                           (Some "tslint.json"));
     lint := λ _ _, ([], Ok {| failures := found |});
     minimatch := λ pattern f, bool_decide (pattern = "*.gen.ts") && endsWith f ".gen.ts";
     normalize := λ p, p |}.

(** ** The rest of [init] and [create] *)

(** The two functions of Node's [path] module that [create] uses on the
    configuration block. *)
Record PathModule : Type := {
  isAbsolute : string -> bool;
  join : string -> string -> string
}.

(** [fixRelativeConfigFilePath(config, projectRoot)]: [config] is updated in
    place and handed back.  [path.isAbsolute] rejects an argument that is
    not a string. *)
Definition fixRelativeConfigFilePath (path : PathModule) (config : gmap string JsValue)
    (projectRoot : string) : Result (gmap string JsValue) :=
  if negb (truthy (prop config "configFile")) then Ok config
  else
    match prop config "configFile" with
    | JsString configFile =>
        if isAbsolute path configFile then Ok config
        else Ok (<["configFile" := JsString (join path projectRoot configFile)]> config)
    | _ => Threw (TypeError "The 'path' argument must be of type string")
    end.

(** The [path] module on POSIX names that need no normalisation: a name is
    absolute when it starts with a slash, and joining puts a slash between
    the two names. *)
Definition slashPath : PathModule :=
  {| isAbsolute := λ p, String.prefix "/" p;
     join := λ a b, a +:+ "/" +:+ b |}.

(** The code fix that [registerCodeFixes] hands to the host: it is used for
    all tslint fixes and computes no action itself. *)
Record CodeFixRegistration : Type := {
  errorCodes : list Z;
  getCodeActions : unit -> option (list CodeAction)
}.

Definition registerCodeFixes {S : Type} (registerCodeFix : CodeFixRegistration -> S -> S)
  : S -> S :=
  registerCodeFix {| errorCodes := [TSLINT_ERROR_CODE];
                     getCodeActions := fun _context => None |}.

(** The decorator set up by [create]: every property [k] of the old
    language service becomes a function that calls [oldLS[k]] with its own
    arguments, then the two operations of the plugin are put in place of
    what was copied under their names. *)
Module Proxy.
Section members.
Context {Args Value : Type}.

Inductive member : Type :=
| forwards (k : string)
| pluginGetSemanticDiagnostics
| pluginGetCodeFixesAtPosition.

Definition create (oldLS : gmap string (Args -> Value)) : gmap string member :=
  <["getCodeFixesAtPosition" := pluginGetCodeFixesAtPosition]>
    (<["getSemanticDiagnostics" := pluginGetSemanticDiagnostics]>
       (map_imap (fun k _ => Some (forwards k)) oldLS)).

(** [proxy[name](...args)], given what the two operations of the plugin
    compute; calling what is not there throws. *)
Definition invoke (oldLS : gmap string (Args -> Value)) (diagnostics codeFixes : Args -> Value)
    (proxy : gmap string member) (name : string) (args : Args) : Result Value :=
  match proxy !! name with
  | Some (forwards k) =>
      match oldLS !! k with
      | Some operation => Ok (operation args)
      | None => Threw (TypeError "Cannot read property 'apply' of undefined")
      end
  | Some pluginGetSemanticDiagnostics => Ok (diagnostics args)
  | Some pluginGetCodeFixesAtPosition => Ok (codeFixes args)
  | None => Threw (TypeError "proxy[name] is not a function")
  end.
End members.
End Proxy.

(** ** Notions used to state further properties *)

(** A character occurs in a string. *)
Fixpoint occurs (c : Ascii.ascii) (s : string) : Prop :=
  match s with
  | EmptyString => False
  | String c' s' => c' = c ∨ occurs c s'
  end.

(** The span of a failure: where it starts and where it ends. *)
Definition spanOf (problem : RuleFailure) : Z * Z :=
  (getPosition (getStartPosition problem), getPosition (getEndPosition problem)).

(** The key under which a failure is recorded. *)
Definition keyOf (problem : RuleFailure) : string :=
  computeKey (getPosition (getStartPosition problem))
             (getPosition (getEndPosition problem)).

(** Every entry of the registry sits under the key of its own span, and no
    key occurs twice in a file's map. *)
Definition registry_keyed (actions : gmap string (list (string * RuleFailure))) : Prop :=
  ∀ file documentFixes,
    actions !! file = Some documentFixes →
    NoDup documentFixes.*1 ∧ Forall (λ kv, kv.1 = keyOf kv.2) documentFixes.

(** What a pass over the failures of a file leaves in the file's map, and
    in the registry. *)
Definition recordInto (documentFixes : list (string * RuleFailure))
    (problems : list RuleFailure) : list (string * RuleFailure) :=
  foldl (λ d problem, if hasFix problem then JsMap.set (keyOf problem) problem d else d)
        documentFixes problems.

Definition recordAll (problems : list RuleFailure) (file : SourceFile.t)
    (actions : gmap string (list (string * RuleFailure)))
  : gmap string (list (string * RuleFailure)) :=
  if existsb hasFix problems
  then <[SourceFile.fileName file :=
           recordInto (default [] (actions !! SourceFile.fileName file)) problems]> actions
  else actions.

(** The state once the operation has logged its start and dropped the
    file's entry. *)
Definition afterClear (fileName : string) (w : World) : World :=
  set_codeFixActions (delete fileName (codeFixActions w))
    (add_logger "Computing tslint semantic diagnostics..." w).

(** The file matches one of the exclusion patterns of the configuration. *)
Definition excludes (tslint : Engine) (c : Configuration) (fileName : string) : bool :=
  match linterOptions c with
  | Some {| exclude := Some patterns |} =>
      existsb (λ pattern, minimatch tslint pattern fileName) patterns
  | _ => false
  end.

(** One replacement ends before the next one starts. *)
Definition apart (a b : Replacement.t) : Prop :=
  Replacement.end_ a < Replacement.start b.

(** Two failures whose replacements [0,5] and [10,12] are apart. *)
Definition twoApart : list (string * RuleFailure) :=
  [ (computeKey 10 12,
     failureAt "a.ts" "semicolon" 10 12 (Some (FixWithReplacements [r_10_12])));
    (computeKey 0 5, failureAt "a.ts" "semicolon" 0 5 (Some (FixArray [r_0_5]))) ].

(** The last of the failures that has a fix and the given key. *)
Definition lastRecorded (k : string) (problems : list RuleFailure) : option RuleFailure :=
  last (filter (λ problem, hasFix problem = true ∧ keyOf problem = k) problems).

(** * Properties *)

(** ** Sorting *)

Section sort_by_facts.
Context {A : Type} (key : A → Z).

Lemma insert_by_perm a l : insert_by key a l ≡ₚ a :: l.
Proof.
  induction l as [|b l IH]; simpl; [done|].
  case_bool_decide; [done|].
  rewrite IH. apply Permutation_swap.
Qed.

Lemma sort_by_perm l : sort_by key l ≡ₚ l.
Proof.
  induction l as [|a l IH]; simpl; [done|].
  rewrite insert_by_perm. by f_equiv.
Qed.

Lemma insert_by_sorted a l :
  Sorted (λ x y, key x ≤ key y) l →
  Sorted (λ x y, key x ≤ key y) (insert_by key a l).
Proof.
  induction 1 as [|b l Hs IH Hhd]; simpl.
  - repeat constructor.
  - case_bool_decide as Hab.
    + constructor; [by constructor|]. constructor. lia.
    + constructor; [done|].
      destruct Hhd as [|c l Hbc]; simpl.
      * constructor. lia.
      * case_bool_decide; constructor; lia.
Qed.

Lemma sort_by_sorted l : Sorted (λ x y, key x ≤ key y) (sort_by key l).
Proof.
  induction l as [|a l IH]; simpl; [constructor|].
  by apply insert_by_sorted.
Qed.

Lemma sort_by_short l : (length l < 2)%nat → sort_by key l = l.
Proof. destruct l as [|a [|b l]]; simpl; [done|done|lia]. Qed.
End sort_by_facts.

(** Sorting pairs of an element and its key by the key, and dropping the
    keys again, sorts the elements. *)
Lemma insert_by_keyed_shape {A} (key : A → Z) a (l : list A) :
  insert_by snd (a, key a) ((λ x, (x, key x)) <$> l)
  = (λ x, (x, key x)) <$> insert_by key a l.
Proof.
  induction l as [|b l IH]; csimpl; [done|].
  case_bool_decide; csimpl; [done|]. by rewrite IH.
Qed.

Lemma sort_by_keyed {A} (key : A → Z) (l : list A) :
  sort_by snd ((λ x, (x, key x)) <$> l) = (λ x, (x, key x)) <$> sort_by key l.
Proof.
  unfold sort_by. induction l as [|a l IH]; csimpl; [done|].
  rewrite IH. apply insert_by_keyed_shape.
Qed.

(** ** Recorded failures have replacements *)

Lemma replacementsAreEmpty_false f :
  replacementsAreEmpty f = false → ∃ r rs, getReplacements f = r :: rs.
Proof.
  destruct f as [[|r rs]|[|r rs]|r]; simpl; intros H; try done; eauto.
Qed.

Lemma hasFix_replacements failure :
  hasFix failure = true →
  ∃ r rs, replacementsOf failure = Ok (r :: rs) ∧ fixReplacements failure = r :: rs.
Proof.
  unfold hasFix, replacementsOf, fixReplacements.
  destruct (getFix failure) as [f|]; [|done].
  intros H. apply negb_true_iff, replacementsAreEmpty_false in H as (r & rs & ->).
  eauto.
Qed.

Lemma hasFix_firstStart failure :
  hasFix failure = true → firstStart failure = Ok (firstReplacementStart failure).
Proof.
  intros (r & rs & Hr & Hf)%hasFix_replacements.
  unfold firstStart, getReplacement, firstReplacementStart. by rewrite Hr, Hf.
Qed.

Lemma mapR_keyed (l : list RuleFailure) :
  Forall (λ a, hasFix a = true) l →
  mapR (λ a, k <-r firstStart a; Ok (a, k)) l
  = Ok ((λ x, (x, firstReplacementStart x)) <$> l).
Proof.
  induction 1 as [|a l Ha _ IH]; csimpl; [done|].
  by rewrite (hasFix_firstStart a Ha), IH.
Qed.

Lemma sortFailures_ok (l : list RuleFailure) :
  Forall (λ a, hasFix a = true) l →
  sortFailures l = Ok (sort_by firstReplacementStart l).
Proof.
  intros Hl. unfold sortFailures. case_bool_decide.
  - by rewrite sort_by_short.
  - rewrite (mapR_keyed l Hl); simpl. rewrite sort_by_keyed.
    rewrite <-list_fmap_compose. by rewrite list_fmap_id.
Qed.

(** The loop agrees with the described walk as soon as the accumulated list
    is empty exactly at index 0. *)
Lemma nonOverlappingLoop_spec (rest : list RuleFailure) :
  Forall (λ a, hasFix a = true) rest →
  ∀ i acc,
    (i = 0%nat ↔ acc = []) →
    nonOverlappingLoop i rest acc
    = Ok (foldl selectStep acc (fixReplacements <$> rest)).
Proof.
  induction 1 as [|failure rest Hf _ IH]; intros i acc Hi; csimpl; [done|].
  destruct (hasFix_replacements failure Hf) as (r & rs & -> & ->); simpl.
  case_bool_decide as Hz.
  - assert (acc = []) as -> by (by apply Hi). simpl.
    rewrite IH; [done|]. split; [lia|done].
  - destruct (last acc) as [a|] eqn:Hlast.
    + simpl. unfold selectStep at 2, touchesLast, overlaps. rewrite Hlast. simpl.
      assert (bool_decide (Replacement.end_ a >= Replacement.start r)
              = bool_decide (Replacement.start r <= Replacement.end_ a)) as ->
        by (apply bool_decide_ext; lia).
      case_bool_decide; simpl; (rewrite IH; [done|]); split; try lia.
      * intros ->. done.
      * intros [-> _]%app_eq_nil. done.
    + apply last_None in Hlast. tauto.
Qed.

(** ** The overlap resolution *)

(** C1: on the failures recorded for a file, each carrying a fix with
    replacements, the fix-all-auto-fixable action first sorts the failures
    ascending by the start offset of their first replacement (the sorted
    array is a permutation of the recorded failures), then walks them in
    order: a failure whose first replacement starts at or before the end of
    the last accumulated replacement is dropped whole, any other has all of
    its replacements appended.  For the three failures with replacement
    spans [0,5], [3,8] and [10,12] the result is exactly the replacements of
    the first and the third. *)
Theorem overlap_resolution_sorts_and_drops (documentFixes : list (string * RuleFailure)) :
  Forall (λ kv, hasFix kv.2 = true) documentFixes →
  ∃ sortedFailures,
    sortFailures (JsMap.values documentFixes) = Ok sortedFailures
    ∧ sortedFailures ≡ₚ JsMap.values documentFixes
    ∧ Sorted (λ a b, firstReplacementStart a ≤ firstReplacementStart b) sortedFailures
    ∧ getNonOverlappingReplacements documentFixes
      = Ok (selectNonOverlapping (fixReplacements <$> sortedFailures))
    ∧ getNonOverlappingReplacements threeFailures = Ok [r_0_5; r_10_12].
Proof.
  intros Hall.
  assert (Forall (λ a, hasFix a = true) (JsMap.values documentFixes)) as Hvalues.
  { unfold JsMap.values. by apply Forall_fmap. }
  exists (sort_by firstReplacementStart (JsMap.values documentFixes)).
  split; [by apply sortFailures_ok|].
  split; [apply sort_by_perm|].
  split; [apply sort_by_sorted|].
  split; [|by vm_compute].
  unfold getNonOverlappingReplacements. rewrite sortFailures_ok by done. simpl.
  apply nonOverlappingLoop_spec; [|done].
  by rewrite sort_by_perm.
Qed.

Lemma overlap_resolution_sorts_and_drops_witness :
  ∃ sortedFailures,
    sortFailures (JsMap.values threeFailures) = Ok sortedFailures
    ∧ sortedFailures ≡ₚ JsMap.values threeFailures
    ∧ Sorted (λ a b, firstReplacementStart a ≤ firstReplacementStart b) sortedFailures
    ∧ getNonOverlappingReplacements threeFailures
      = Ok (selectNonOverlapping (fixReplacements <$> sortedFailures))
    ∧ getNonOverlappingReplacements threeFailures = Ok [r_0_5; r_10_12].
Proof.
  apply (overlap_resolution_sorts_and_drops threeFailures).
  repeat constructor.
Defined.

(** ** Frame of the configuration lookup *)

(** What the lookup leaves alone: the registry, [console.warn], the log; it
    talks to the engine about configurations only and never returns from
    the enclosing function. *)
Ltac no_lint_calls :=
  repeat (constructor; [simpl; tauto|]); constructor.

Ltac frame_done :=
  repeat split; simpl;
  first [ done
        | by rewrite <-?app_assoc
        | no_lint_calls ].

Lemma getConfiguration_frame {R} config tslint filePath configFileName (w : World) :
  ∃ c w' evs,
    getConfiguration (R:=R) config tslint filePath configFileName w = (c, w')
    ∧ codeFixActions w' = codeFixActions w
    ∧ console_warn w' = console_warn w
    ∧ hostConsole w' = hostConsole w
    ∧ logger w' = logger w
    ∧ engineCalls w' = engineCalls w ++ evs
    ∧ Forall (λ ev, ¬ isLintCall ev) evs
    ∧ (∀ r, c ≠ Return r).
Proof.
  unfold getConfiguration, bind, gets, modify, liftR, ret, throw.
  destruct (_ && _).
  { eexists _, _, []. rewrite app_nil_r. by repeat split. }
  simpl.
  destruct (findConfigurationPath _ _ _) as [foundPath|e]; simpl.
  { destruct (findConfiguration _ _ _) as [res|e]; simpl.
    - destruct (ConfigurationLoadResult.error res) as [[|m s st]|];
        destruct (prop config "disableNoUnusedVariableRule") as [| |[]| |];
        destruct (ConfigurationLoadResult.results res); simpl;
        (eexists _, _, [_; _]; frame_done).
    - eexists _, _, [_; _]. frame_done. }
  eexists _, _, [_]. frame_done.
Qed.

(** ** Frames of the three blocks of the diagnostics operation *)

Ltac block_done evs :=
  eexists _, _, evs; (split; [reflexivity|]); repeat split; simpl; try done;
  first [ by left | by right; left | by right; right; eexists ].

Lemma resolveConfiguration_frame config tslint fileName prior (w : World) :
  ∃ c w' evs,
    resolveConfiguration config tslint fileName prior w = (c, w')
    ∧ codeFixActions w' = codeFixActions w
    ∧ console_warn w' = console_warn w
    ∧ hostConsole w' = hostConsole w
    ∧ engineCalls w' = engineCalls w ++ evs
    ∧ Forall (λ ev, ¬ isLintCall ev) evs
    ∧ (c = Normal tt ∨ c = Return prior ∨ thrownTypeError c).
Proof.
  unfold resolveConfiguration, try_catch, bind at 1.
  destruct (getConfiguration_frame (R:=list Diagnostic.t) config tslint fileName
              (prop config "configFile") w)
    as (c & w1 & evs & -> & Hreg & Hwarn & Hhost & _ & Hev & Hno & Hret).
  destruct c as [[c|]|r|[|m s st]]; [| | by destruct (Hret r) | |]; simpl.
  - unfold modify, return_, ret, bind.
    destruct (linterOptions c) as [[[patterns|]]|]; simpl;
      [destruct (existsb _ _)|..]; block_done evs.
  - block_done evs.
  - block_done evs.
  - block_done evs.
Qed.

Lemma console_warn_call_frame {R} (message : string) (w : World) :
  ∃ w',
    console_warn_call (R:=R) message w = (Normal tt, w')
    ∧ codeFixActions w' = codeFixActions w
    ∧ console_warn w' = console_warn w
    ∧ (console_warn w = sinkCaptureWarnings → hostConsole w' = hostConsole w)
    ∧ engineCalls w' = engineCalls w.
Proof.
  unfold console_warn_call, captureWarnings, logger_info, modify.
  destruct (console_warn w) eqn:Hsink; eexists; by repeat split.
Qed.

Lemma forEach_console_warn_frame {R} (warnings : list string) (w : World) :
  ∃ w',
    forEach (R:=R) console_warn_call warnings w = (Normal tt, w')
    ∧ codeFixActions w' = codeFixActions w
    ∧ console_warn w' = console_warn w
    ∧ (console_warn w = sinkCaptureWarnings → hostConsole w' = hostConsole w)
    ∧ engineCalls w' = engineCalls w.
Proof.
  revert w. induction warnings as [|message warnings IH]; intros w; simpl.
  - by exists w.
  - unfold bind.
    destruct (console_warn_call_frame (R:=R) message w)
      as (w1 & -> & H1 & H2 & H3 & H4).
    destruct (IH w1) as (w' & -> & H5 & H6 & H7 & H8).
    exists w'. split; [done|]. split; [congruence|]. split; [congruence|].
    split; [|congruence].
    intros Hsink. rewrite H7, H3 by congruence. done.
Qed.

(** The lint run: one call to the engine, [console.warn] put back whatever
    the engine did, a crash of the engine turned into [return prior]. *)
Lemma lintFile_frame tslint fileName prior (w : World) :
  ∃ c w' outcome,
    lintFile tslint fileName prior w = (c, w')
    ∧ codeFixActions w' = codeFixActions w
    ∧ console_warn w' = console_warn w
    ∧ hostConsole w' = hostConsole w
    ∧ engineCalls w' = engineCalls w ++ [CalledLint fileName (configuration w) outcome]
    ∧ match outcome with
      | Ok result => c = Normal result
      | Threw ThrownNullish => thrownTypeError c
      | Threw (ThrownValue message _ _) =>
          c = Return prior
          ∧ last (logger w')
            = Some ("tslint error " +:+ default "unknown error" message)
      end.
Proof.
  unfold lintFile, runLinter, try_finally, try_catch, bind, gets, modify. simpl.
  destruct (lint tslint fileName (configuration w)) as [warnings outcome]. simpl.
  match goal with |- context [forEach _ _ ?w1] =>
    destruct (forEach_console_warn_frame (R:=list Diagnostic.t) warnings w1)
      as (w2 & -> & Hreg & Hwarn & Hhost & Hev) end.
  simpl in *. specialize (Hhost eq_refl).
  destruct outcome as [result|[|m s st]]; simpl;
    eexists _, _, _; (split; [reflexivity|]); simpl;
    rewrite ?Hreg, ?Hev, ?Hhost; repeat split; try done.
  - by eexists.
  - by rewrite last_snoc.
Qed.

(** ** Recording failures *)

Lemma JsMap_set_Forall {V} (P : string * V → Prop) k v (m : list (string * V)) :
  Forall P m → (∀ k', P (k', v)) → Forall P (JsMap.set k v m).
Proof.
  intros Hm Hv. induction Hm as [|[k' v'] m Hkv Hm IH]; simpl.
  - by repeat constructor.
  - case_decide; constructor; auto.
Qed.

Lemma recordCodeAction_frame {R} problem file (w : World) :
  ∃ c w',
    recordCodeAction (R:=R) problem file w = (c, w')
    ∧ console_warn w' = console_warn w
    ∧ hostConsole w' = hostConsole w
    ∧ engineCalls w' = engineCalls w
    ∧ (registry_ok (codeFixActions w) → registry_ok (codeFixActions w'))
    ∧ (c = Normal tt ∨ thrownTypeError c ∧ w' = w)
    ∧ (hasFix problem = false → c = Normal tt ∧ w' = w).
Proof.
  unfold recordCodeAction.
  remember (hasFix problem) as fixable eqn:Hfixable. unfold hasFix in Hfixable.
  destruct (getFix problem) as [f|] eqn:Hget;
    [destruct (replacementsAreEmpty f) eqn:Hempty|]; simpl in *;
    try (exists (Normal tt), w; by repeat split; auto).
  subst fixable.
  destruct file as [file|]; simpl.
  - unfold bind, gets, modify. simpl. eexists _, _. split; [reflexivity|].
    repeat split; simpl; auto; [|done].
    intros Hok file' doc'. rewrite lookup_insert. case_decide as Hfile.
    + intros [= <-]. apply JsMap_set_Forall.
      * destruct (codeFixActions w !! SourceFile.fileName file) as [doc|] eqn:Hdoc;
          simpl; [by eapply Hok | constructor].
      * intros k'. simpl. unfold hasFix. by rewrite Hget, Hempty.
    + apply Hok.
  - unfold throw. eexists _, _. split; [reflexivity|].
    repeat split; auto; [|done]. right. split; [by eexists | done].
Qed.

Lemma pushDiagnostics_frame {R} config file problems diagnostics (w : World) :
  ∃ c w',
    pushDiagnostics (R:=R) config file problems diagnostics w = (c, w')
    ∧ console_warn w' = console_warn w
    ∧ hostConsole w' = hostConsole w
    ∧ engineCalls w' = engineCalls w
    ∧ (registry_ok (codeFixActions w) → registry_ok (codeFixActions w'))
    ∧ (c = Normal (diagnostics ++ ((λ problem, makeDiagnostic config problem file) <$> problems))
       ∨ thrownTypeError c).
Proof.
  revert diagnostics w.
  induction problems as [|problem rest IH]; intros diagnostics w; simpl.
  - exists (Normal diagnostics), w. rewrite app_nil_r. repeat split; auto.
  - unfold bind.
    destruct (recordCodeAction_frame (R:=R) problem file w)
      as (c1 & w1 & -> & Hwarn & Hhost & Hev & Hok & [->|[[msg ->] ->]] & _).
    + destruct (IH (diagnostics ++ [makeDiagnostic config problem file]) w1)
        as (c & w' & -> & ? & ? & ? & ? & Hc).
      exists c, w'. rewrite <-app_assoc in Hc. repeat split; try congruence; auto.
    + eexists _, _. split; [reflexivity|]. repeat split; auto. right. by eexists.
Qed.

Lemma reportFailures_frame config oldLS tslint fileName prior result (w : World) :
  ∃ c w',
    reportFailures config oldLS tslint fileName prior result w = (c, w')
    ∧ console_warn w' = console_warn w
    ∧ hostConsole w' = hostConsole w
    ∧ engineCalls w' = engineCalls w
    ∧ (registry_ok (codeFixActions w) → registry_ok (codeFixActions w'))
    ∧ (filterProblemsForDocument tslint fileName (failures result) = [] →
       c = Normal tt ∧ w' = w)
    ∧ (c = Normal tt
       ∨ c = Return (prior ++ ((λ problem,
                                 makeDiagnostic config problem (getSourceFile oldLS fileName))
                               <$> filterProblemsForDocument tslint fileName (failures result)))
       ∨ thrownTypeError c).
Proof.
  unfold reportFailures.
  assert (∃ c w', ret (R:=list Diagnostic.t) tt w = (c, w')
    ∧ console_warn w' = console_warn w
    ∧ hostConsole w' = hostConsole w
    ∧ engineCalls w' = engineCalls w
    ∧ (registry_ok (codeFixActions w) → registry_ok (codeFixActions w'))
    ∧ (filterProblemsForDocument tslint fileName (failures result) = [] →
       c = Normal tt ∧ w' = w)
    ∧ (c = Normal tt
       ∨ c = Return (prior ++ ((λ problem,
                                 makeDiagnostic config problem (getSourceFile oldLS fileName))
                               <$> filterProblemsForDocument tslint fileName (failures result)))
       ∨ thrownTypeError c)) as Hskip.
  { exists (Normal tt), w. repeat split; auto. }
  case_bool_decide as Hany; [|done].
  case_bool_decide as Hown; [|done].
  simpl. unfold bind.
  destruct (pushDiagnostics_frame (R:=list Diagnostic.t) config
              (getSourceFile oldLS fileName)
              (filterProblemsForDocument tslint fileName (failures result)) prior w)
    as (c & w' & -> & ? & ? & ? & ? & Hc).
  assert (filterProblemsForDocument tslint fileName (failures result) ≠ []) as Hne.
  { intros Hnil. rewrite Hnil in Hown. simpl in Hown. lia. }
  destruct Hc as [->|[msg ->]]; eexists _, _; (split; [reflexivity|]);
    repeat split; auto; try done.
  right; right. by eexists.
Qed.

(** ** The diagnostics operation as a whole *)

Arguments resolveConfiguration : simpl never.
Arguments lintFile : simpl never.
Arguments reportFailures : simpl never.

Lemma registry_ok_delete fileName actions :
  registry_ok actions → registry_ok (delete fileName actions).
Proof.
  intros Hok file doc [_ Hdoc]%lookup_delete_Some. by eapply Hok.
Qed.

Ltac absurd_event :=
  match goal with
  | H : _ ∈ [] |- _ => by apply elem_of_nil in H
  | H : ?ev ∈ ?evs, Hno : Forall _ ?evs |- _ =>
      exfalso; rewrite Forall_forall in Hno; by apply (Hno ev H)
  end.

Ltac splits_prior :=
  (split; [reflexivity|]);
  repeat match goal with
         | |- _ ∧ _ => split
         | |- _ = _ ∨ _ => by left
         | |- ∀ _, _ => intro
         end;
  simpl; try done; try congruence; try absurd_event; auto.

(** Every way through [proxy.getSemanticDiagnostics]: it returns to the
    host, with the host's diagnostics or with the lint failures of the file
    appended to them. *)
Lemma getSemanticDiagnostics_spec config oldLS tslint fileName (w : World) :
  let prior := oldGetSemanticDiagnostics oldLS fileName in
  ∃ r w' evs,
    getSemanticDiagnostics config oldLS tslint fileName w = (Ok r, w')
    ∧ console_warn w' = console_warn w
    ∧ hostConsole w' = hostConsole w
    ∧ (registry_ok (codeFixActions w) → registry_ok (codeFixActions w'))
    ∧ engineCalls w' = engineCalls w ++ evs
    ∧ (∀ f cfg e, CalledLint f cfg (Threw e) ∈ evs →
       r = prior ∧ codeFixActions w' !! fileName = None
       ∧ endsWithCrashReport oldLS e (logger w'))
    ∧ (∀ f cfg result, CalledLint f cfg (Ok result) ∈ evs →
       filterProblemsForDocument tslint fileName (failures result) = [] → r = prior)
    ∧ (r = prior
       ∨ ∃ cfg result,
           CalledLint fileName cfg (Ok result) ∈ evs
           ∧ r = prior ++ ((λ problem,
                              makeDiagnostic config problem (getSourceFile oldLS fileName))
                           <$> filterProblemsForDocument tslint fileName (failures result))).
Proof.
  intros prior.
  unfold getSemanticDiagnostics, call, getSemanticDiagnostics_body.
  fold prior.
  destruct (truthy _ && _) eqn:Hgate.
  { exists prior, w, []. rewrite app_nil_r. splits_prior. }
  unfold try_catch, bind, logger_info, gets, modify, ret, return_. simpl.
  match goal with |- context [?t] =>
    match t with (if bool_decide (is_Some _) then _ else _) _ => set (cleared := t) end
  end.
  assert (∃ w1,
      cleared = (Normal tt, w1)
      ∧ codeFixActions w1 !! fileName = None
      ∧ console_warn w1 = console_warn w
      ∧ hostConsole w1 = hostConsole w
      ∧ engineCalls w1 = engineCalls w
      ∧ (registry_ok (codeFixActions w) → registry_ok (codeFixActions w1)))
    as (w1 & Hcleared & Hnone & Hwarn1 & Hhost1 & Hev1 & Hok1).
  { subst cleared.
    destruct (bool_decide (is_Some (codeFixActions w !! fileName))) eqn:Hhas;
      eexists; (split; [reflexivity|]); simpl.
    - rewrite lookup_delete_eq. repeat split; auto using registry_ok_delete.
    - apply bool_decide_eq_false in Hhas. repeat split; auto.
      by apply eq_None_not_Some. }
  clearbody cleared. subst cleared.
  destruct (strictlyTrue _ && endsWith _ _).
  { exists prior, w1, []. rewrite app_nil_r. splits_prior. }
  destruct (resolveConfiguration_frame config tslint fileName prior w1)
    as (c1 & w2 & evs1 & -> & Hreg2 & Hwarn2 & Hhost2 & Hev2 & Hno & Hc1).
  destruct Hc1 as [->|[->|[msg ->]]]; simpl.
  2:{ exists prior, w2, evs1. splits_prior; rewrite ?Hreg2; auto. }
  2:{ eexists prior, _, evs1. splits_prior; rewrite ?Hreg2; auto. }
  destruct (lintFile_frame tslint fileName prior w2)
    as (c2 & w3 & outcome & -> & Hreg3 & Hwarn3 & Hhost3 & Hev3 & Hout).
  assert (∀ f cfg o,
    CalledLint f cfg o ∈ evs1 ++ [CalledLint fileName (configuration w2) outcome] →
    o = outcome) as Hone.
  { intros f cfg o [Hin|Hin]%elem_of_app; [absurd_event|].
    apply list_elem_of_singleton in Hin. congruence. }
  assert (engineCalls w3
          = engineCalls w ++ evs1 ++ [CalledLint fileName (configuration w2) outcome])
    as Hev by (rewrite Hev3, Hev2, Hev1; by rewrite <-app_assoc).
  assert (codeFixActions w3 !! fileName = None) as Hnone3 by congruence.
  assert (console_warn w3 = console_warn w) as Hwarn by congruence.
  assert (hostConsole w3 = hostConsole w) as Hhost by congruence.
  assert (registry_ok (codeFixActions w) → registry_ok (codeFixActions w3)) as Hok3.
  { intros Hok. rewrite Hreg3, Hreg2. auto. }
  destruct outcome as [result|[|m s st]].
  - subst c2.
    destruct (reportFailures_frame config oldLS tslint fileName prior result w3)
      as (c3 & w4 & -> & Hwarn4 & Hhost4 & Hev4 & Hok4 & Hnil & Hc3).
    assert (engineCalls w4
            = engineCalls w ++ evs1 ++ [CalledLint fileName (configuration w2) (Ok result)])
      as Hev' by congruence.
    destruct Hc3 as [->|[->|[msg ->]]]; simpl.
    + eexists prior, w4, _.
      splits_prior; match goal with Hin : CalledLint _ _ _ ∈ _ |- _ => by apply Hone in Hin end.
    + eexists _, w4, _. split; [reflexivity|].
      split; [congruence|]. split; [congruence|]. split; [auto|]. split; [apply Hev'|].
      split; [|split].
      * intros f cfg e Hin. by apply Hone in Hin.
      * intros f cfg result0 Hin Hempty. apply Hone in Hin as [= ->].
        by destruct (Hnil Hempty).
      * right. exists (configuration w2), result. split; [|done].
        apply elem_of_app. right. by apply list_elem_of_singleton.
    + eexists prior, _, _.
      splits_prior; match goal with Hin : CalledLint _ _ _ ∈ _ |- _ => by apply Hone in Hin end.
  - destruct Hout as [msg ->]. simpl.
    eexists prior, _, _. splits_prior;
      try match goal with Hin : CalledLint _ _ _ ∈ _ |- _ => apply Hone in Hin as [= ->] end.
    eexists. eexists. rewrite <-app_assoc. reflexivity.
  - destruct Hout as [-> Hlog]. simpl.
    eexists prior, _, _. splits_prior;
      try match goal with Hin : CalledLint _ _ _ ∈ _ |- _ => apply Hone in Hin as [= ->] end.
    done.
Qed.

(** ** Filtering by document *)

(** The memo table only ever holds normalized names, so the filter keeps
    exactly the failures whose file normalizes to the document's path. *)
Lemma filterLoop_filter normalize normalizedPath normalizedFiles failures :
  (∀ f n, normalizedFiles !! f = Some n → n = normalize f) →
  filterLoop normalize normalizedPath normalizedFiles failures
  = filter (λ each, normalize (getFileName each) = normalizedPath) failures.
Proof.
  revert normalizedFiles.
  induction failures as [|each rest IH]; intros memo Hmemo; simpl; [done|].
  set (memo' := match memo !! getFileName each with
                | Some _ => memo
                | None => <[getFileName each := normalize (getFileName each)]> memo
                end).
  assert (∀ f n, memo' !! f = Some n → n = normalize f) as Hmemo'.
  { subst memo'. destruct (memo !! getFileName each) eqn:Hlook; [done|].
    intros f n. rewrite lookup_insert. case_decide; [|by apply Hmemo]. naive_solver. }
  assert (memo' !! getFileName each = Some (normalize (getFileName each))) as Hhit.
  { subst memo'. destruct (memo !! getFileName each) as [n|] eqn:Hlook.
    - by rewrite Hlook, (Hmemo _ _ Hlook).
    - by rewrite lookup_insert_eq. }
  rewrite Hhit, (IH memo' Hmemo'), filter_cons.
  case_bool_decide as Hsame; case_decide as Hkeep; naive_solver.
Qed.

Lemma filterProblemsForDocument_filter tslint documentPath failures :
  filterProblemsForDocument tslint documentPath failures
  = filter (λ each, normalize tslint (getFileName each) = normalize tslint documentPath)
           failures.
Proof. apply filterLoop_filter. intros f n. by rewrite lookup_empty. Qed.

Lemma filterProblemsForDocument_none tslint documentPath failures :
  failures = []
  ∨ Forall (λ each, normalize tslint (getFileName each) ≠ normalize tslint documentPath)
           failures →
  filterProblemsForDocument tslint documentPath failures = [].
Proof.
  rewrite filterProblemsForDocument_filter. intros [->|Hother]; [done|].
  induction Hother as [|each rest Hne _ IH]; [done|].
  rewrite filter_cons. by case_decide.
Qed.

(** ** Warnings of the engine while [console.warn] is redirected *)

Lemma forEach_console_warn_captured {R} (warnings : list string) (w : World) :
  console_warn w = sinkCaptureWarnings →
  ∃ w',
    forEach (R:=R) console_warn_call warnings w = (Normal tt, w')
    ∧ logger w' = logger w ++ ((λ message, "[tslint] " +:+ message) <$> warnings).
Proof.
  revert w. induction warnings as [|message warnings IH]; intros w Hsink; simpl.
  - exists w. by rewrite app_nil_r.
  - unfold bind, console_warn_call at 1. rewrite Hsink.
    unfold captureWarnings, logger_info, modify.
    destruct (IH (add_logger ("[tslint] " +:+ message) w)) as (w' & -> & Hlog); [done|].
    exists w'. split; [done|]. rewrite Hlog. simpl. by rewrite <-app_assoc.
Qed.

Lemma lintFile_captures tslint fileName prior (w : World) :
  ∃ lines,
    logger (lintFile tslint fileName prior w).2
    = logger w
      ++ ((λ message, "[tslint] " +:+ message) <$> (lint tslint fileName (configuration w)).1)
      ++ lines.
Proof.
  unfold lintFile, runLinter, try_finally, try_catch, bind, gets, modify. simpl.
  destruct (lint tslint fileName (configuration w)) as [warnings outcome]. simpl.
  match goal with |- context [forEach _ _ ?w1] =>
    destruct (forEach_console_warn_captured (R:=list Diagnostic.t) warnings w1)
      as (w2 & -> & Hlog); [done|] end.
  simpl in Hlog.
  destruct outcome as [result|[|m s st]]; simpl; rewrite ?Hlog.
  - exists []. by rewrite app_nil_r.
  - exists []. by rewrite app_nil_r.
  - eexists [_]. by rewrite <-app_assoc.
Qed.

(** ** The diagnostics operation, stage by stage *)

(** Past the suppression gate the operation logs its start and drops the
    file's entry; a declaration file to be ignored ends it there, anything
    else goes through the three blocks inside the outer [try]. *)
Lemma getSemanticDiagnostics_stages config oldLS tslint fileName (w : World) :
  let prior := oldGetSemanticDiagnostics oldLS fileName in
  getSemanticDiagnostics config oldLS tslint fileName w
  = if truthy (prop config "supressWhileTypeErrorsPresent")
       && bool_decide (0 < length prior)%nat
    then (Ok prior, w)
    else if strictlyTrue (prop config "ignoreDefinitionFiles") && endsWith fileName ".d.ts"
    then (Ok prior, afterClear fileName w)
    else call (try_catch
                 (resolveConfiguration config tslint fileName prior ;;
                  result <- lintFile tslint fileName prior ;;
                  reportFailures config oldLS tslint fileName prior result)
                 (logServiceError oldLS) ;;
               ret prior)
              (afterClear fileName w).
Proof.
  intros prior.
  unfold getSemanticDiagnostics, call, getSemanticDiagnostics_body. fold prior.
  destruct (truthy _ && _); [done|].
  unfold try_catch, bind, logger_info, gets, modify, ret, return_. simpl.
  match goal with |- context [?t] =>
    match t with (if bool_decide (is_Some _) then _ else _) _ => set (cleared := t) end
  end.
  assert (cleared = (Normal tt, afterClear fileName w)) as ->.
  { subst cleared. unfold afterClear. case_bool_decide as Hhas; [done|].
    apply eq_None_not_Some in Hhas. by rewrite delete_id. }
  by destruct (strictlyTrue _ && endsWith _ _).
Qed.

(** ** Suppression while type errors are present *)

(** The operations see the configuration block through the options they
    read and through nothing else. *)
Lemma sameOptions_reads config config' :
  sameOptions config config' →
  prop config "supressWhileTypeErrorsPresent" = prop config' "supressWhileTypeErrorsPresent"
  ∧ prop config "ignoreDefinitionFiles" = prop config' "ignoreDefinitionFiles"
  ∧ prop config "configFile" = prop config' "configFile"
  ∧ prop config "disableNoUnusedVariableRule" = prop config' "disableNoUnusedVariableRule"
  ∧ prop config "alwaysShowRuleFailuresAsWarnings"
    = prop config' "alwaysShowRuleFailuresAsWarnings".
Proof.
  unfold sameOptions, optionsRead. rewrite !Forall_cons. tauto.
Qed.

Lemma makeDiagnostic_sameOptions config config' problem file :
  sameOptions config config' →
  makeDiagnostic config problem file = makeDiagnostic config' problem file.
Proof.
  intros (_ & _ & _ & _ & Hwarn)%sameOptions_reads. unfold makeDiagnostic. by rewrite Hwarn.
Qed.

Lemma pushDiagnostics_sameOptions {R} config config' file problems diagnostics (w : World) :
  sameOptions config config' →
  pushDiagnostics (R:=R) config file problems diagnostics w
  = pushDiagnostics (R:=R) config' file problems diagnostics w.
Proof.
  intros Hsame. revert diagnostics w.
  induction problems as [|problem rest IH]; intros diagnostics w; simpl; [done|].
  unfold bind. rewrite (makeDiagnostic_sameOptions config config') by done.
  destruct (recordCodeAction problem file w) as [[[]|r|e] w1]; auto.
Qed.

Lemma reportFailures_sameOptions config config' oldLS tslint fileName prior result
    (w : World) :
  sameOptions config config' →
  reportFailures config oldLS tslint fileName prior result w
  = reportFailures config' oldLS tslint fileName prior result w.
Proof.
  intros Hsame. unfold reportFailures, bind.
  destruct (bool_decide (0 < length (failures result))%nat); [|done].
  destruct (bool_decide (0 < length _)%nat); [|done].
  by rewrite (pushDiagnostics_sameOptions config config').
Qed.

Lemma getConfiguration_sameOptions {R} config config' tslint filePath configFileName
    (w : World) :
  sameOptions config config' →
  getConfiguration (R:=R) config tslint filePath configFileName w
  = getConfiguration (R:=R) config' tslint filePath configFileName w.
Proof.
  intros (_ & _ & _ & Hrule & _)%sameOptions_reads.
  unfold getConfiguration. by rewrite Hrule.
Qed.

Lemma resolveConfiguration_sameOptions config config' tslint fileName prior (w : World) :
  sameOptions config config' →
  resolveConfiguration config tslint fileName prior w
  = resolveConfiguration config' tslint fileName prior w.
Proof.
  intros Hsame. pose proof Hsame as (_ & _ & Hfile & _)%sameOptions_reads.
  unfold resolveConfiguration, try_catch, bind. rewrite Hfile.
  by rewrite (getConfiguration_sameOptions config config').
Qed.

Lemma getSemanticDiagnostics_sameOptions config config' oldLS tslint fileName (w : World) :
  sameOptions config config' →
  getSemanticDiagnostics config oldLS tslint fileName w
  = getSemanticDiagnostics config' oldLS tslint fileName w.
Proof.
  intros Hsame. pose proof Hsame as (Hgate & Hignore & _)%sameOptions_reads.
  rewrite !getSemanticDiagnostics_stages. rewrite Hgate, Hignore.
  destruct (truthy _ && _); [done|].
  destruct (strictlyTrue _ && endsWith _ _); [done|].
  unfold call, try_catch, bind.
  rewrite (resolveConfiguration_sameOptions config config') by done.
  destruct (resolveConfiguration _ _ _ _ _) as [[[]|r|e] w1]; try done.
  destruct (lintFile _ _ _ _) as [[result|r|e] w2]; try done.
  by rewrite (reportFailures_sameOptions config config').
Qed.

Lemma getCodeFixesAtPosition_sameOptions config config' oldLS fileName start end_
    errorCodes (w : World) :
  sameOptions config config' →
  getCodeFixesAtPosition config oldLS fileName start end_ errorCodes w
  = getCodeFixesAtPosition config' oldLS fileName start end_ errorCodes w.
Proof.
  intros (Hgate & _)%sameOptions_reads.
  unfold getCodeFixesAtPosition, getCodeFixesAtPosition_body. by rewrite Hgate.
Qed.

Lemma sameOptions_insert name value config :
  name ∉ optionsRead → sameOptions (<[name := value]> config) config.
Proof.
  intros Hname. apply Forall_forall. intros read Hread.
  unfold prop. rewrite lookup_insert_ne; [done|]. by intros ->.
Qed.

(** C2, as the code has it: when the host's diagnostics for the file are
    not empty and the option the plugin reads, spelled
    [supressWhileTypeErrorsPresent], is truthy, the diagnostics operation
    returns the host's diagnostics and leaves every piece of state as it
    was: no lint run, no registry write, nothing logged.  An option spelled
    [suppressWhileTypeErrorsPresent] is not read: whatever its value, each
    of the two operations returns what it returns without it and leaves the
    state it leaves without it. *)
Theorem supress_option_returns_prior config oldLS tslint fileName (w : World) :
  (truthy (prop config "supressWhileTypeErrorsPresent") = true →
   oldGetSemanticDiagnostics oldLS fileName ≠ [] →
   getSemanticDiagnostics config oldLS tslint fileName w
   = (Ok (oldGetSemanticDiagnostics oldLS fileName), w))
  ∧ (∀ value,
       getSemanticDiagnostics (<["suppressWhileTypeErrorsPresent" := value]> config)
         oldLS tslint fileName w
       = getSemanticDiagnostics config oldLS tslint fileName w)
  ∧ (∀ value start end_ errorCodes,
       getCodeFixesAtPosition (<["suppressWhileTypeErrorsPresent" := value]> config)
         oldLS fileName start end_ errorCodes w
       = getCodeFixesAtPosition config oldLS fileName start end_ errorCodes w).
Proof.
  assert ("suppressWhileTypeErrorsPresent" ∉ optionsRead) as Hname.
  { unfold optionsRead. rewrite !not_elem_of_cons. repeat split; try done.
    apply not_elem_of_nil. }
  split; [|split].
  - intros Hopt Hprior.
    unfold getSemanticDiagnostics, call, getSemanticDiagnostics_body.
    rewrite Hopt, bool_decide_eq_true_2; [done|].
    destruct (oldGetSemanticDiagnostics oldLS fileName); [done|simpl; lia].
  - intros value. by apply getSemanticDiagnostics_sameOptions, sameOptions_insert.
  - intros value start end_ errorCodes.
    by apply getCodeFixesAtPosition_sameOptions, sameOptions_insert.
Qed.

Lemma supress_option_returns_prior_witness :
  getSemanticDiagnostics supressConfig (sampleHost [typeError])
    (reportingEngine [fixableFailure]) "a.ts" (initialWorld (sinkHost 0))
  = (Ok [typeError], initialWorld (sinkHost 0)).
Proof.
  apply (proj1 (supress_option_returns_prior supressConfig (sampleHost [typeError])
                  (reportingEngine [fixableFailure]) "a.ts" (initialWorld (sinkHost 0)))).
  - reflexivity.
  - simpl. discriminate.
Defined.

(** C2, as stated, fails: with [suppressWhileTypeErrorsPresent] set to true
    and a type error reported by the host, the file is linted all the same,
    a tslint diagnostic is appended and the failure is recorded. *)
Lemma suppress_option_is_not_read :
  let oldLS := sampleHost [typeError] in
  let out := getSemanticDiagnostics suppressConfig oldLS
               (reportingEngine [fixableFailure]) "a.ts" (initialWorld (sinkHost 0)) in
  prop suppressConfig "suppressWhileTypeErrorsPresent" = JsBool true
  ∧ oldGetSemanticDiagnostics oldLS "a.ts" = [typeError]
  ∧ out.1 = Ok [typeError;
                makeDiagnostic suppressConfig fixableFailure (Some sampleSource)]
  ∧ out.1 ≠ Ok (oldGetSemanticDiagnostics oldLS "a.ts")
  ∧ codeFixActions out.2 !! "a.ts" = Some [(computeKey 10 12, fixableFailure)]
  ∧ (∃ cfg outcome, CalledLint "a.ts" cfg outcome ∈ engineCalls out.2).
Proof.
  repeat split; try by vm_compute.
  eexists _, _. vm_compute. do 2 apply list_elem_of_further. apply list_elem_of_here.
Qed.

(** ** A crash of the linting engine *)

(** C4: when the linting engine throws during the diagnostics operation,
    the operation returns the host's diagnostics to the host (nothing is
    thrown at it), the registry has no entry for the file afterwards and
    the plugin log ends with the report of the crash: the line of the
    [catch] around the lint run with the message of the thrown value, or,
    for a thrown [null] or [undefined], the two lines that the [catch]
    around the operation writes about the error raised in the first
    [catch], with the stack the runtime gave to that error. *)
Theorem engine_crash_returns_prior config oldLS tslint fileName (w : World)
    r w' evs f cfg e :
  getSemanticDiagnostics config oldLS tslint fileName w = (r, w') →
  engineCalls w' = engineCalls w ++ evs →
  CalledLint f cfg (Threw e) ∈ evs →
  r = Ok (oldGetSemanticDiagnostics oldLS fileName)
  ∧ codeFixActions w' !! fileName = None
  ∧ endsWithCrashReport oldLS e (logger w').
Proof.
  intros Hrun Hevs Hin.
  destruct (getSemanticDiagnostics_spec config oldLS tslint fileName w)
    as (r0 & w0 & evs0 & Hrun0 & _ & _ & _ & Hevs0 & Hcrash & _).
  rewrite Hrun in Hrun0. injection Hrun0 as -> ->.
  rewrite Hevs in Hevs0. apply app_inv_head in Hevs0 as ->.
  destruct (Hcrash f cfg e Hin) as (-> & ? & ?). done.
Qed.

Lemma engine_crash_returns_prior_witness :
  let out := getSemanticDiagnostics ∅ (sampleHost [typeError]) crashingEngine "a.ts"
               (initialWorld (sinkHost 0)) in
  let out' := getSemanticDiagnostics ∅ (sampleHost [typeError]) nullThrowingEngine "a.ts"
                (lintedWorld [fixableFailure]) in
  (out.1 = Ok [typeError]
   ∧ codeFixActions out.2 !! "a.ts" = None
   ∧ last (logger out.2) = Some ("tslint error " +:+ default "unknown error" (Some "boom")))
  ∧ (out'.1 = Ok [typeError]
     ∧ codeFixActions out'.2 !! "a.ts" = None
     ∧ ∃ description,
         [ "tslint-language service error: " +:+ description;
           "Stack trace: " +:+ runtimeStack (sampleHost [typeError]) description ]
         `suffix_of` logger out'.2).
Proof.
  set (cfg := Some {| rules := deleteNoUnusedVariable (rules sampleConfiguration);
                      jsRules := deleteNoUnusedVariable (jsRules sampleConfiguration);
                      linterOptions := None |}).
  split.
  - set (e := ThrownValue (Some "boom") "Error: boom" "at lint").
    apply (engine_crash_returns_prior ∅ (sampleHost [typeError]) crashingEngine "a.ts"
             (initialWorld (sinkHost 0)) _ _
             [CalledFindConfigurationPath JsUndefined "a.ts";
              CalledFindConfiguration JsUndefined "a.ts";
              CalledLint "a.ts" cfg (Threw e)]
             "a.ts" cfg e).
    + apply surjective_pairing.
    + by vm_compute.
    + do 2 apply list_elem_of_further. apply list_elem_of_here.
  - apply (engine_crash_returns_prior ∅ (sampleHost [typeError]) nullThrowingEngine "a.ts"
             (lintedWorld [fixableFailure]) _ _
             [CalledLint "a.ts" cfg (Threw ThrownNullish)]
             "a.ts" cfg ThrownNullish).
    + apply surjective_pairing.
    + by vm_compute.
    + apply list_elem_of_here.
Defined.

(** ** [console.warn] *)

(** C5: around the lint run [console.warn] is saved and bound to the
    plugin's own sink, so the warnings of the engine go to the plugin log
    and none reaches the host's sink; it is put back on every way out of
    the lint block, a crash of the engine included, and after any call of
    the diagnostics operation [console.warn] is what it was before the
    call. *)
Theorem console_warn_restored config oldLS tslint fileName prior (w : World) :
  console_warn (getSemanticDiagnostics config oldLS tslint fileName w).2 = console_warn w
  ∧ hostConsole (getSemanticDiagnostics config oldLS tslint fileName w).2 = hostConsole w
  ∧ console_warn (lintFile tslint fileName prior w).2 = console_warn w
  ∧ hostConsole (lintFile tslint fileName prior w).2 = hostConsole w
  ∧ ∃ lines,
      logger (lintFile tslint fileName prior w).2
      = logger w
        ++ ((λ message, "[tslint] " +:+ message)
            <$> (lint tslint fileName (configuration w)).1)
        ++ lines.
Proof.
  destruct (getSemanticDiagnostics_spec config oldLS tslint fileName w)
    as (r & w' & evs & -> & Hwarn & Hhost & _).
  destruct (lintFile_frame tslint fileName prior w)
    as (c & w2 & outcome & Hlint & _ & Hwarn2 & Hhost2 & _).
  rewrite Hlint. simpl. repeat split; try done.
  rewrite <-(f_equal snd Hlint : (lintFile tslint fileName prior w).2 = w2).
  apply lintFile_captures.
Qed.

(** ** Nothing to report *)

(** C9: when the lint run reports no failure, or only failures whose file
    does not normalize to the queried file, the diagnostics operation
    returns exactly the host's diagnostics. *)
Theorem no_failure_returns_prior config oldLS tslint fileName (w : World)
    r w' evs f cfg result :
  getSemanticDiagnostics config oldLS tslint fileName w = (r, w') →
  engineCalls w' = engineCalls w ++ evs →
  CalledLint f cfg (Ok result) ∈ evs →
  failures result = []
  ∨ Forall (λ each, normalize tslint (getFileName each) ≠ normalize tslint fileName)
           (failures result) →
  r = Ok (oldGetSemanticDiagnostics oldLS fileName).
Proof.
  intros Hrun Hevs Hin Hnone%filterProblemsForDocument_none.
  destruct (getSemanticDiagnostics_spec config oldLS tslint fileName w)
    as (r0 & w0 & evs0 & Hrun0 & _ & _ & _ & Hevs0 & _ & Hquiet & _).
  rewrite Hrun in Hrun0. injection Hrun0 as -> ->.
  rewrite Hevs in Hevs0. apply app_inv_head in Hevs0 as ->.
  by rewrite (Hquiet f cfg result Hin Hnone).
Qed.

Lemma no_failure_returns_prior_witness :
  (getSemanticDiagnostics ∅ (sampleHost [typeError]) (reportingEngine [otherFileFailure])
     "a.ts" (initialWorld (sinkHost 0))).1
  = Ok [typeError].
Proof.
  set (cfg := Some {| rules := deleteNoUnusedVariable (rules sampleConfiguration);
                      jsRules := deleteNoUnusedVariable (jsRules sampleConfiguration);
                      linterOptions := None |}).
  apply (no_failure_returns_prior ∅ (sampleHost [typeError])
           (reportingEngine [otherFileFailure]) "a.ts" (initialWorld (sinkHost 0)) _
           (getSemanticDiagnostics ∅ (sampleHost [typeError])
              (reportingEngine [otherFileFailure]) "a.ts" (initialWorld (sinkHost 0))).2
           [CalledFindConfigurationPath JsUndefined "a.ts";
            CalledFindConfiguration JsUndefined "a.ts";
            CalledLint "a.ts" cfg (Ok {| failures := [otherFileFailure] |})]
           "a.ts" cfg {| failures := [otherFileFailure] |}).
  - apply surjective_pairing.
  - by vm_compute.
  - do 2 apply list_elem_of_further. apply list_elem_of_here.
  - right. repeat constructor. simpl. discriminate.
Defined.

(** ** The configuration cache *)

Lemma cacheHit_test (cache : ConfigCache.t) filePath :
  bool_decide (is_Some (ConfigCache.configuration cache))
  && bool_decide (ConfigCache.filePath cache = Some filePath)
  = cacheHit cache filePath.
Proof. apply andb_comm. Qed.

Lemma deleteNoUnusedVariable_spec (c : RulesContainer) :
  withoutNoUnusedVariable c (deleteNoUnusedVariable c).
Proof.
  destruct c as [|m|o]; simpl; [done| |done].
  exists (delete "no-unused-variable" m). split; [done|].
  split; [apply lookup_delete_eq|]. intros name Hname. by apply lookup_delete_ne.
Qed.

(** C6, as the code has it: the cache is one slot.  A lookup whose file
    path equals the cached one, with a cached configuration present,
    returns the cached configuration without asking the engine and leaves
    everything as it was.  Any other lookup is a miss that asks the engine
    afresh; when the resolution succeeds the slot is replaced as a whole by
    what was resolved for the queried path, when it throws the slot keeps
    what it held. *)
Theorem configuration_cache_single_slot (R : Type) config tslint filePath configFileName
    (w : World) :
  let out := getConfiguration (R:=R) config tslint filePath configFileName w in
  if cacheHit (configCache w) filePath then
    out = (Normal (ConfigCache.configuration (configCache w)), w)
  else
    (∃ evs, engineCalls out.2
            = engineCalls w ++ CalledFindConfigurationPath configFileName filePath :: evs)
    ∧ match out.1 with
      | Normal c =>
          ∃ foundPath res,
            findConfigurationPath tslint configFileName filePath = Ok foundPath
            ∧ findConfiguration tslint configFileName filePath = Ok res
            ∧ configCache out.2
              = ConfigCache.mk (Some filePath) c (bool_decide (foundPath = None))
                               (ConfigurationLoadResult.path res)
      | Throw _ => configCache out.2 = configCache w
      | Return _ => False
      end.
Proof.
  unfold getConfiguration, bind, gets, modify, liftR, ret, throw.
  rewrite cacheHit_test. destruct (cacheHit _ _); [done|]. simpl.
  destruct (findConfigurationPath _ _ _) as [foundPath|e]; simpl.
  2:{ split; [by eexists []|done]. }
  destruct (findConfiguration _ _ _) as [res|e]; simpl.
  2:{ split; [|done]. eexists [_]. by rewrite <-app_assoc. }
  destruct (ConfigurationLoadResult.error res) as [[|m s st]|];
    destruct (prop config "disableNoUnusedVariableRule") as [| |[]| |];
    destruct (ConfigurationLoadResult.results res); simpl;
    (split; [eexists [_]; by rewrite <-app_assoc|]);
    try done; by eexists _, _.
Qed.

(** A second lookup for the cached path is answered from the slot, whatever
    configuration file is asked for, and the engine is not called. *)
Example second_lookup_hits_cache :
  let w := (getConfiguration (R:=list Diagnostic.t) ∅ brokenConfigEngine "a.ts" JsUndefined
              (initialWorld (sinkHost 0))).2 in
  getConfiguration (R:=list Diagnostic.t) ∅ brokenConfigEngine "a.ts"
    (JsString "other/tslint.json") w
  = (Normal (ConfigCache.configuration (configCache w)), w).
Proof. by vm_compute. Qed.

(** C6, as stated, fails: with the configuration of [a.ts] cached, a lookup
    for [b.ts] whose resolution throws leaves the slot holding the entry of
    [a.ts]. *)
Lemma failed_lookup_keeps_cache_slot :
  let w := (getConfiguration (R:=list Diagnostic.t) ∅ brokenConfigEngine "a.ts" JsUndefined
              (initialWorld (sinkHost 0))).2 in
  let out := getConfiguration (R:=list Diagnostic.t) ∅ brokenConfigEngine "b.ts" JsUndefined w in
  ConfigCache.filePath (configCache w) = Some "a.ts"
  ∧ cacheHit (configCache w) "b.ts" = false
  ∧ out.1 = Throw (ThrownValue (Some "invalid JSON") "FatalError: invalid JSON" "")
  ∧ configCache out.2 = configCache w
  ∧ ConfigCache.filePath (configCache out.2) ≠ Some "b.ts".
Proof. repeat split; by vm_compute. Qed.

(** ** Removal of 'no-unused-variable' *)

(** C7, as the code has it: a lookup that resolves a configuration (a miss
    that returns) hands out and caches the engine's configuration with
    'no-unused-variable' deleted from each of [rules] and [jsRules] that is
    a [Map], when [disableNoUnusedVariableRule] is [true] or not given; a
    rule set that is not a [Map] is left as resolved, and with any other
    value of the option the whole configuration is. *)
Theorem no_unused_variable_removed_from_map_rule_sets (R : Type) config tslint
    filePath configFileName (w : World) c w' :
  cacheHit (configCache w) filePath = false →
  getConfiguration (R:=R) config tslint filePath configFileName w = (Normal c, w') →
  ConfigCache.configuration (configCache w') = c
  ∧ ∃ res,
      findConfiguration tslint configFileName filePath = Ok res
      ∧ if removalEnabled config then
          ∃ c0 c1,
            ConfigurationLoadResult.results res = Some c0
            ∧ c = Some c1
            ∧ withoutNoUnusedVariable (rules c0) (rules c1)
            ∧ withoutNoUnusedVariable (jsRules c0) (jsRules c1)
            ∧ linterOptions c1 = linterOptions c0
        else c = ConfigurationLoadResult.results res.
Proof.
  unfold getConfiguration, bind, gets, modify, liftR, ret, throw, removalEnabled.
  rewrite cacheHit_test. intros ->. simpl.
  destruct (findConfigurationPath _ _ _) as [foundPath|e]; simpl; [|done].
  destruct (findConfiguration _ _ _) as [res|e]; simpl; [|done].
  destruct (ConfigurationLoadResult.error res) as [[|m s st]|];
    destruct (prop config "disableNoUnusedVariableRule") as [| |[]| |];
    destruct (ConfigurationLoadResult.results res) as [c0|] eqn:Hres; simpl;
    intros [= <- <-]; (split; [done|]); exists res; (split; [done|]);
    try done;
    eexists c0, _; repeat split; auto using deleteNoUnusedVariable_spec.
Qed.

Lemma no_unused_variable_removed_from_map_rule_sets_witness :
  let w := initialWorld (sinkHost 0) in
  let tslint := reportingEngine [] in
  let c := Some {| rules := RulesMap ∅;
                   jsRules := RulesObject {[ "no-unused-variable" := JsBool true ]};
                   linterOptions := None |} in
  let w' := (getConfiguration (R:=list Diagnostic.t) ∅ tslint "a.ts" JsUndefined w).2 in
  ConfigCache.configuration (configCache w') = c
  ∧ ∃ res,
      findConfiguration tslint JsUndefined "a.ts" = Ok res
      ∧ if removalEnabled ∅ then
          ∃ c0 c1,
            ConfigurationLoadResult.results res = Some c0
            ∧ c = Some c1
            ∧ withoutNoUnusedVariable (rules c0) (rules c1)
            ∧ withoutNoUnusedVariable (jsRules c0) (jsRules c1)
            ∧ linterOptions c1 = linterOptions c0
        else c = ConfigurationLoadResult.results res.
Proof.
  intros w tslint c w'.
  apply (no_unused_variable_removed_from_map_rule_sets (list Diagnostic.t) ∅
           tslint "a.ts" JsUndefined w c w').
  - reflexivity.
  - by vm_compute.
Defined.

(** C7, as stated, fails: with the option not given, a rule set stored as a
    plain object keeps 'no-unused-variable' after the resolution. *)
Lemma object_rule_set_keeps_no_unused_variable :
  let out := getConfiguration (R:=list Diagnostic.t) ∅ (reportingEngine []) "a.ts"
               JsUndefined (initialWorld (sinkHost 0)) in
  prop ∅ "disableNoUnusedVariableRule" = JsUndefined
  ∧ ∃ c o,
      out.1 = Normal (Some c)
      ∧ jsRules c = RulesObject o
      ∧ o !! "no-unused-variable" = Some (JsBool true).
Proof.
  split; [done|].
  eexists _, _. split; [by vm_compute|]. split; [reflexivity|]. by vm_compute.
Qed.

(** ** The fix actions on recorded failures *)

Lemma problemToFileTextChange_ok problem fileName :
  hasFix problem = true →
  problemToFileTextChange problem fileName = Ok (fileChange problem fileName).
Proof.
  intros (r & rs & Hr & Hf)%hasFix_replacements.
  unfold problemToFileTextChange, fileChange. by rewrite Hr, Hf.
Qed.

Lemma ruleFailureChanges_ok ruleName (problems : list RuleFailure) fileName changes :
  Forall (λ problem, hasFix problem = true) problems →
  ruleFailureChanges ruleName problems fileName changes
  = Ok (changes ++ ((λ problem, fileChange problem fileName)
                    <$> filter (λ problem, getRuleName problem = ruleName) problems)).
Proof.
  intros Hall. revert changes.
  induction Hall as [|problem rest Hfix _ IH]; intros changes; simpl.
  - by rewrite app_nil_r.
  - rewrite filter_cons. case_bool_decide as Hrule; case_decide; try done.
    rewrite (problemToFileTextChange_ok _ _ Hfix). simpl.
    rewrite IH. by rewrite <-app_assoc.
Qed.

Lemma addRuleFailureFixAll_ok fixes ruleName (problems : list (string * RuleFailure))
    fileName :
  Forall (λ kv, hasFix kv.2 = true) problems →
  addRuleFailureFixAll fixes ruleName problems fileName
  = Ok (fixes ++ fixAllOfRule ruleName problems fileName).
Proof.
  intros Hall. unfold addRuleFailureFixAll, fixAllOfRule.
  rewrite ruleFailureChanges_ok by (unfold JsMap.values; by apply Forall_fmap).
  simpl. fold (sameRule ruleName problems). rewrite length_fmap.
  case_bool_decide; case_bool_decide; try lia; [by rewrite app_nil_r|done].
Qed.

Lemma addAllAutoFixable_ok fixes (documentFixes : list (string * RuleFailure)) fileName :
  Forall (λ kv, hasFix kv.2 = true) documentFixes →
  addAllAutoFixable fixes documentFixes fileName
  = Ok (fixes ++ [fixAllAutoFixable documentFixes fileName]).
Proof.
  intros Hall.
  assert (Forall (λ a, hasFix a = true) (JsMap.values documentFixes)) as Hvalues
    by (unfold JsMap.values; by apply Forall_fmap).
  unfold addAllAutoFixable, getNonOverlappingReplacements.
  rewrite sortFailures_ok by done. simpl.
  rewrite nonOverlappingLoop_spec; [done| |done].
  by rewrite sort_by_perm.
Qed.

Lemma JsMap_get_elem {V} k (v : V) (m : list (string * V)) :
  JsMap.get k m = Some v → (k, v) ∈ m.
Proof.
  induction m as [|[k' v'] m IH]; simpl; [done|].
  case_decide as Hk.
  - intros [= ->]. subst. apply list_elem_of_here.
  - intros Hget. apply list_elem_of_further. auto.
Qed.

(** The code-fixes operation on a registry of fixable failures: what is
    added to the host's fixes depends on the registry entry of the file and
    on the failure recorded under the queried span, in this order. *)
Lemma getCodeFixesAtPosition_spec config oldLS fileName start end_ errorCodes (w : World) :
  registry_ok (codeFixActions w) →
  let prior := oldGetCodeFixesAtPosition oldLS fileName start end_ errorCodes in
  let out := getCodeFixesAtPosition config oldLS fileName start end_ errorCodes w in
  if truthy (prop config "supressWhileTypeErrorsPresent")
     && bool_decide (0 < length prior)%nat
  then out = (Ok prior, w)
  else
    codeFixActions out.2 = codeFixActions w
    ∧ out.1
      = match codeFixActions w !! fileName with
        | None => Ok prior
        | Some documentFixes =>
            match JsMap.get (computeKey start end_) documentFixes with
            | None => Ok (prior ++ [fixAllAutoFixable documentFixes fileName])
            | Some problem =>
                match getSourceFile oldLS fileName with
                | Some file =>
                    Ok (prior ++ [singleFix problem fileName]
                          ++ fixAllOfRule (getRuleName problem) documentFixes fileName
                          ++ [fixAllAutoFixable documentFixes fileName;
                              disableRuleOnLine problem fileName file])
                | None =>
                    Threw (TypeError "Cannot read property 'getLineStarts' of undefined")
                end
            end
        end.
Proof.
  intros Hok prior out. subst out.
  unfold getCodeFixesAtPosition, call, getCodeFixesAtPosition_body. fold prior.
  destruct (truthy _ && _); [done|].
  unfold bind, logger_info, gets, modify, ret, return_. simpl.
  destruct (codeFixActions w !! fileName) as [documentFixes|] eqn:Hdoc; simpl; [|done].
  pose proof (Hok _ _ Hdoc) as Hall.
  destruct (JsMap.get (computeKey start end_) documentFixes) as [problem|] eqn:Hget; simpl.
  - assert (hasFix problem = true) as Hfix.
    { apply JsMap_get_elem in Hget. rewrite Forall_forall in Hall.
      by apply (Hall _ Hget). }
    unfold addRuleFailureFix. rewrite (problemToFileTextChange_ok _ _ Hfix). simpl.
    rewrite (addRuleFailureFixAll_ok _ _ _ _ Hall). simpl.
    rewrite (addAllAutoFixable_ok _ _ _ Hall). simpl.
    unfold addOpenConfigurationFix, addDisableRuleFix.
    destruct (getSourceFile oldLS fileName) as [file|]; simpl; [|done].
    split; [done|]. f_equal. by rewrite <-!app_assoc.
  - rewrite (addAllAutoFixable_ok _ _ _ Hall). done.
Qed.

Lemma registry_ok_initial warn : registry_ok (codeFixActions (initialWorld warn)).
Proof. intros file doc. simpl. by rewrite lookup_empty. Qed.

Lemma registry_ok_getSemanticDiagnostics config oldLS tslint fileName (w : World) :
  registry_ok (codeFixActions w) →
  registry_ok (codeFixActions (getSemanticDiagnostics config oldLS tslint fileName w).2).
Proof.
  destruct (getSemanticDiagnostics_spec config oldLS tslint fileName w)
    as (r & w' & evs & -> & _ & _ & Hok & _). exact Hok.
Qed.

Lemma registry_ok_lintedWorld found : registry_ok (codeFixActions (lintedWorld found)).
Proof. apply registry_ok_getSemanticDiagnostics, registry_ok_initial. Qed.

(** ** Fix all auto-fixable failures *)




(** ** Fix all failures of one rule *)

(** C8: for the failure located at the queried span, the fix-all-of-rule
    action is left out when that failure is the only recorded one of its
    rule, and is offered, right after the failure's own fix, exactly when
    two or more recorded failures have that rule name; it then holds one
    change per such failure, in the order of the registry. *)
Theorem fix_all_of_rule_needs_two config oldLS fileName start end_ errorCodes (w : World)
    documentFixes problem file :
  registry_ok (codeFixActions w) →
  truthy (prop config "supressWhileTypeErrorsPresent")
  && bool_decide (0 < length (oldGetCodeFixesAtPosition oldLS fileName start end_ errorCodes))%nat
  = false →
  codeFixActions w !! fileName = Some documentFixes →
  JsMap.get (computeKey start end_) documentFixes = Some problem →
  getSourceFile oldLS fileName = Some file →
  let prior := oldGetCodeFixesAtPosition oldLS fileName start end_ errorCodes in
  let matching :=
    filter (λ other, getRuleName other = getRuleName problem) (JsMap.values documentFixes) in
  let fixAll :=
    {| description := "Fix all '" +:+ showRuleName (getRuleName problem) +:+ "'";
       changes := (λ other, fileChange other fileName) <$> matching |} in
  (1 ≤ length matching)%nat
  ∧ addRuleFailureFixAll [] (getRuleName problem) documentFixes fileName
    = Ok (if bool_decide (2 ≤ length matching)%nat then [fixAll] else [])
  ∧ (getCodeFixesAtPosition config oldLS fileName start end_ errorCodes w).1
    = Ok (prior ++ [singleFix problem fileName]
            ++ (if bool_decide (2 ≤ length matching)%nat then [fixAll] else [])
            ++ [fixAllAutoFixable documentFixes fileName;
                disableRuleOnLine problem fileName file]).
Proof.
  intros Hok Hgate Hdoc Hget Hfile prior matching fixAll.
  pose proof (Hok _ _ Hdoc) as Hall.
  split; [|split].
  - assert (problem ∈ matching) as Hin.
    { apply list_elem_of_filter. split; [done|].
      apply JsMap_get_elem in Hget. unfold JsMap.values.
      apply list_elem_of_fmap. by exists (computeKey start end_, problem). }
    destruct matching; [by apply elem_of_nil in Hin|simpl; lia].
  - by rewrite (addRuleFailureFixAll_ok [] _ _ _ Hall).
  - pose proof (getCodeFixesAtPosition_spec config oldLS fileName start end_ errorCodes w Hok)
      as Hspec.
    simpl in Hspec. fold prior in Hgate, Hspec.
    rewrite Hgate, Hdoc, Hget, Hfile in Hspec. by destruct Hspec as [_ ->].
Qed.

Lemma fix_all_of_rule_needs_two_witness :
  let documentFixes := [(computeKey 10 12, fixableFailure);
                        (computeKey 30 32, secondSemicolon)] in
  let fixAll :=
    {| description := "Fix all 'semicolon'";
       changes := [fileChange fixableFailure "a.ts"; fileChange secondSemicolon "a.ts"] |} in
  (1 ≤ 2)%nat
  ∧ addRuleFailureFixAll [] (Some "semicolon") documentFixes "a.ts" = Ok [fixAll]
  ∧ (getCodeFixesAtPosition ∅ (sampleHost []) "a.ts" 10 12 [TSLINT_ERROR_CODE]
       (lintedWorld [fixableFailure; unfixableFailure; secondSemicolon])).1
    = Ok [singleFix fixableFailure "a.ts"; fixAll;
          fixAllAutoFixable documentFixes "a.ts";
          disableRuleOnLine fixableFailure "a.ts" sampleSource].
Proof.
  apply (fix_all_of_rule_needs_two ∅ (sampleHost []) "a.ts" 10 12 [TSLINT_ERROR_CODE]
           (lintedWorld [fixableFailure; unfixableFailure; secondSemicolon])
           [(computeKey 10 12, fixableFailure); (computeKey 30 32, secondSemicolon)]
           fixableFailure sampleSource).
  - apply registry_ok_lintedWorld.
  - reflexivity.
  - by vm_compute.
  - by vm_compute.
  - reflexivity.
Defined.

(** * Further properties of the code *)

(** ** Shapes of a fix *)

(** X1: a fix counts as empty exactly when it yields no replacement, in
    each of its historical shapes; a bare replacement never does. *)
Theorem replacementsAreEmpty_iff_no_replacements (fix_ : Fix) :
  replacementsAreEmpty fix_ = true ↔ getReplacements fix_ = [].
Proof.
  destruct fix_ as [[|r rs]|[|r rs]|r]; simpl; split; intros H; try done.
Qed.

(** ** Span keys *)

Lemma occurs_app c s1 s2 : occurs c (s1 +:+ s2) ↔ occurs c s1 ∨ occurs c s2.
Proof. induction s1 as [|c' s1 IH]; simpl; [tauto|]. rewrite IH. tauto. Qed.

Lemma pretty_N_go_no_comma x s : ¬ occurs ","%char s → ¬ occurs ","%char (pretty_N_go x s).
Proof.
  revert s. induction (N.lt_wf_0 x) as [x _ IH]; intros s Hs.
  assert (x = 0 ∨ 0 < x)%N as [->|Hpos] by lia.
  - by rewrite pretty_N_go_0.
  - rewrite pretty_N_go_step by done. apply IH; [by apply N.div_lt|].
    simpl. intros [Hc|Hc]; [|done].
    unfold pretty_N_char in Hc. by repeat case_match.
Qed.

Lemma pretty_Z_no_comma (z : Z) : ¬ occurs ","%char (pretty z).
Proof.
  assert (∀ n : N, ¬ occurs ","%char (pretty n)) as HN.
  { intros n. unfold pretty, pretty_N. case_decide; [simpl; intros [?|?]; done|].
    apply pretty_N_go_no_comma. simpl. tauto. }
  destruct z as [|p|p]; unfold pretty, pretty_Z.
  - simpl. intros [?|?]; done.
  - apply HN.
  - rewrite occurs_app. intros [Hd|Hp]; [|by apply (HN (Npos p))].
    simpl in Hd. destruct Hd as [?|?]; done.
Qed.

(** Two strings without a comma that are followed by a comma and agree
    with what follows are equal, and so is what follows. *)
Lemma split_at_comma a b c d :
  ¬ occurs ","%char a → ¬ occurs ","%char c →
  a +:+ "," +:+ b = c +:+ "," +:+ d → a = c ∧ b = d.
Proof.
  revert c. induction a as [|x a IH]; intros [|y c] Ha Hc Heq; simplify_eq/=.
  - done.
  - tauto.
  - tauto.
  - destruct (IH c) as [-> ->]; tauto.
Qed.

Lemma append_bracket_inj b d : b +:+ "]" = d +:+ "]" → b = d.
Proof.
  revert d. induction b as [|x b IH]; intros [|y d] Heq; simplify_eq/=; try done.
  - by destruct d.
  - by destruct b.
  - by rewrite (IH d).
Qed.

Lemma computeKey_eq_inv start end_ start' end_' :
  computeKey start end_ = computeKey start' end_' → start = start' ∧ end_ = end_'.
Proof.
  unfold computeKey. simpl. intros [= Heq].
  apply split_at_comma in Heq as [Hs He]; try apply pretty_Z_no_comma.
  apply append_bracket_inj in He.
  split; by apply (inj pretty).
Qed.

(** X2: the key of a span determines the span: two spans with the same key
    have the same start and the same end. *)
Theorem computeKey_inj start end_ start' end_' :
  computeKey start end_ = computeKey start' end_' → start = start' ∧ end_ = end_'.
Proof. apply computeKey_eq_inv. Qed.

Lemma computeKey_inj_witness :
  (7 : Z) = 7 ∧ (12 : Z) = 12.
Proof. apply (computeKey_inj 7 12 7 12). reflexivity. Defined.

(** ** Failures of the document *)

(** X3: filtering keeps exactly the failures whose file normalizes to the
    path of the document, in the order in which the engine reported them;
    the table of normalized names kept while filtering changes nothing. *)
Theorem filterProblemsForDocument_own_file tslint documentPath failures :
  filterProblemsForDocument tslint documentPath failures
  = filter (λ each, normalize tslint (getFileName each) = normalize tslint documentPath)
           failures
  ∧ sublist (filterProblemsForDocument tslint documentPath failures) failures
  ∧ ∀ each,
      each ∈ filterProblemsForDocument tslint documentPath failures
      ↔ each ∈ failures
        ∧ normalize tslint (getFileName each) = normalize tslint documentPath.
Proof.
  rewrite filterProblemsForDocument_filter.
  split; [done|]. split; [apply sublist_filter|].
  intros each. by rewrite list_elem_of_filter, (comm and).
Qed.

(** ** More on the overlap resolution *)

Lemma Sorted_app_last {A} (R : relation A) (l1 l2 : list A) :
  Sorted R l1 → Sorted R l2 →
  (∀ a b, last l1 = Some a → head l2 = Some b → R a b) →
  Sorted R (l1 ++ l2).
Proof.
  intros H1 H2 Hjoin. induction H1 as [|x l1 Hs IH Hhd]; simpl; [done|].
  constructor.
  - apply IH. intros a b Ha Hb. apply Hjoin; [|done].
    destruct l1; [done|]. by rewrite last_cons, Ha.
  - destruct Hhd as [|y l1 Hxy]; simpl; [|by constructor].
    destruct l2 as [|b l2]; constructor. by apply Hjoin.
Qed.

Lemma Sorted_app_join {A} (R : relation A) (l1 l2 : list A) a b :
  Sorted R (l1 ++ b :: l2) → last l1 = Some a → R a b.
Proof.
  induction l1 as [|x l1 IH]; simpl; [done|].
  intros Hs Hlast. apply Sorted_inv in Hs as [Hs Hhd].
  destruct l1 as [|y l1]; simpl in *.
  - injection Hlast as ->. by inversion Hhd.
  - by apply IH.
Qed.

Lemma touchesLast_false selected rs a b :
  touchesLast selected rs = false → last selected = Some a → head rs = Some b →
  apart a b.
Proof.
  unfold touchesLast, apart. intros Htouch Hlast Hhead.
  rewrite Hlast, Hhead in Htouch. apply bool_decide_eq_false in Htouch. lia.
Qed.

Lemma selectNonOverlapping_sorted (fixes : list (list Replacement.t)) selected :
  Sorted apart selected → Forall (Sorted apart) fixes →
  Sorted apart (foldl selectStep selected fixes).
Proof.
  intros Hsel Hfixes. revert selected Hsel.
  induction Hfixes as [|rs fixes Hrs _ IH]; intros selected Hsel; simpl; [done|].
  apply IH. unfold selectStep. destruct (touchesLast selected rs) eqn:Htouch; [done|].
  apply Sorted_app_last; eauto using touchesLast_false.
Qed.

Lemma selectNonOverlapping_Forall (P : Replacement.t → Prop)
    (fixes : list (list Replacement.t)) selected :
  Forall P selected → Forall (Forall P) fixes →
  Forall P (foldl selectStep selected fixes).
Proof.
  intros Hsel Hfixes. revert selected Hsel.
  induction Hfixes as [|rs fixes Hrs _ IH]; intros selected Hsel; simpl; [done|].
  apply IH. unfold selectStep. destruct (touchesLast selected rs); [done|].
  by apply Forall_app.
Qed.

(** Replacements that each end no earlier than they start and of which
    each is before the next are before all later ones. *)
Lemma apart_StronglySorted (rs : list Replacement.t) :
  Sorted apart rs →
  Forall (λ r, Replacement.start r ≤ Replacement.end_ r) rs →
  StronglySorted apart rs.
Proof.
  induction 1 as [|a rs Hs IH Hhd]; intros Hwf; [constructor|].
  apply Forall_cons in Hwf as [Ha Hwf]. specialize (IH Hwf).
  constructor; [done|].
  destruct Hhd as [|b rs Hab]; [constructor|].
  apply StronglySorted_inv in IH as [_ Hb].
  apply Forall_cons in Hwf as [Hbwf _].
  constructor; [done|].
  eapply Forall_impl; [exact Hb|]. unfold apart in *. simpl. intros c Hbc. lia.
Qed.

(** X4: when the replacements of every recorded fix end no earlier than
    they start and are in ascending order without touching each other, so
    are the replacements of the fix-all-auto-fixable action: each one ends
    before every later one starts. *)
Theorem aggregate_replacements_never_overlap (documentFixes : list (string * RuleFailure)) :
  Forall (λ kv, hasFix kv.2 = true) documentFixes →
  Forall (λ kv, Sorted apart (fixReplacements kv.2)) documentFixes →
  Forall (λ kv, Forall (λ r, Replacement.start r ≤ Replacement.end_ r)
                       (fixReplacements kv.2)) documentFixes →
  ∃ allReplacements,
    getNonOverlappingReplacements documentFixes = Ok allReplacements
    ∧ StronglySorted apart allReplacements.
Proof.
  intros Hfix Hsorted Hwf.
  assert (Forall (λ a, hasFix a = true) (JsMap.values documentFixes)) as Hvalues
    by (unfold JsMap.values; by apply Forall_fmap).
  unfold getNonOverlappingReplacements. rewrite sortFailures_ok by done. simpl.
  rewrite nonOverlappingLoop_spec; [|by rewrite sort_by_perm|done].
  eexists. split; [done|].
  apply apart_StronglySorted.
  - apply selectNonOverlapping_sorted; [constructor|].
    apply Forall_fmap. rewrite sort_by_perm. unfold JsMap.values. by apply Forall_fmap.
  - apply selectNonOverlapping_Forall; [constructor|].
    apply Forall_fmap. rewrite sort_by_perm. unfold JsMap.values. by apply Forall_fmap.
Qed.

Lemma aggregate_replacements_never_overlap_witness :
  ∃ allReplacements,
    getNonOverlappingReplacements threeFailures = Ok allReplacements
    ∧ StronglySorted apart allReplacements.
Proof.
  apply (aggregate_replacements_never_overlap threeFailures).
  - repeat constructor.
  - repeat constructor.
  - repeat constructor; simpl; lia.
Defined.

Lemma selectNonOverlapping_keeps (rest : list RuleFailure) selected :
  ∃ kept,
    sublist kept rest
    ∧ foldl selectStep selected (fixReplacements <$> rest)
      = selected ++ concat (fixReplacements <$> kept).
Proof.
  revert selected. induction rest as [|failure rest IH]; intros selected; csimpl.
  - exists []. by rewrite app_nil_r.
  - unfold selectStep at 2. destruct (touchesLast selected (fixReplacements failure)).
    + destruct (IH selected) as (kept & Hsub & ->).
      exists kept. split; [by apply sublist_cons|done].
    + destruct (IH (selected ++ fixReplacements failure)) as (kept & Hsub & ->).
      exists (failure :: kept). split; [by apply sublist_skip|].
      csimpl. by rewrite <-app_assoc.
Qed.

(** X5: the fix-all-auto-fixable action takes whole fixes only: its
    replacements are those of some of the recorded failures, in sorted
    order, each with all of its replacements, and the failure that sorts
    first is always among them. *)
Theorem aggregate_takes_whole_fixes (documentFixes : list (string * RuleFailure)) :
  Forall (λ kv, hasFix kv.2 = true) documentFixes →
  let sortedFailures := sort_by firstReplacementStart (JsMap.values documentFixes) in
  ∃ kept,
    sublist kept sortedFailures
    ∧ head kept = head sortedFailures
    ∧ getNonOverlappingReplacements documentFixes
      = Ok (concat (fixReplacements <$> kept)).
Proof.
  intros Hfix sortedFailures.
  assert (Forall (λ a, hasFix a = true) (JsMap.values documentFixes)) as Hvalues
    by (unfold JsMap.values; by apply Forall_fmap).
  unfold getNonOverlappingReplacements. rewrite sortFailures_ok by done. simpl.
  rewrite nonOverlappingLoop_spec; [|by rewrite sort_by_perm|done].
  fold sortedFailures. destruct sortedFailures as [|first rest]; csimpl.
  - by exists [].
  - unfold selectStep at 2. simpl.
    destruct (selectNonOverlapping_keeps rest (fixReplacements first))
      as (kept & Hsub & ->).
    exists (first :: kept). split; [by apply sublist_skip|]. by split.
Qed.

Lemma aggregate_takes_whole_fixes_witness :
  let sortedFailures := sort_by firstReplacementStart (JsMap.values threeFailures) in
  ∃ kept,
    sublist kept sortedFailures
    ∧ head kept = head sortedFailures
    ∧ getNonOverlappingReplacements threeFailures
      = Ok (concat (fixReplacements <$> kept)).
Proof.
  apply (aggregate_takes_whole_fixes threeFailures). repeat constructor.
Defined.

Lemma selectNonOverlapping_all (rest : list RuleFailure) selected :
  Forall (λ a, hasFix a = true) rest →
  Sorted apart (selected ++ concat (fixReplacements <$> rest)) →
  foldl selectStep selected (fixReplacements <$> rest)
  = selected ++ concat (fixReplacements <$> rest).
Proof.
  intros Hfix. revert selected.
  induction Hfix as [|failure rest Hf _ IH]; intros selected Hsorted; csimpl.
  - by rewrite app_nil_r.
  - destruct (hasFix_replacements failure Hf) as (r & rs & _ & Hrs).
    csimpl in Hsorted. rewrite Hrs in *.
    assert (touchesLast selected (r :: rs) = false) as Htouch.
    { unfold touchesLast. destruct (last selected) as [a|] eqn:Hlast; [|done]. simpl.
      apply bool_decide_eq_false.
      assert (apart a r) as Hapart by (by eapply Sorted_app_join).
      unfold apart in Hapart. lia. }
    unfold selectStep at 2. rewrite Htouch.
    rewrite IH; [by rewrite <-app_assoc|]. by rewrite <-app_assoc.
Qed.

(** X6: when the replacements of all recorded failures, taken in sorted
    order, are already apart from each other, the fix-all-auto-fixable
    action drops none of them. *)
Theorem aggregate_drops_nothing_when_apart (documentFixes : list (string * RuleFailure)) :
  Forall (λ kv, hasFix kv.2 = true) documentFixes →
  Sorted apart (concat (fixReplacements
                        <$> sort_by firstReplacementStart (JsMap.values documentFixes))) →
  getNonOverlappingReplacements documentFixes
  = Ok (concat (fixReplacements
                <$> sort_by firstReplacementStart (JsMap.values documentFixes))).
Proof.
  intros Hfix Hsorted.
  assert (Forall (λ a, hasFix a = true) (JsMap.values documentFixes)) as Hvalues
    by (unfold JsMap.values; by apply Forall_fmap).
  unfold getNonOverlappingReplacements. rewrite sortFailures_ok by done. simpl.
  rewrite nonOverlappingLoop_spec; [|by rewrite sort_by_perm|done].
  f_equal. apply (selectNonOverlapping_all _ []); [by rewrite sort_by_perm|done].
Qed.

Lemma aggregate_drops_nothing_when_apart_witness :
  getNonOverlappingReplacements twoApart = Ok [r_0_5; r_10_12].
Proof.
  apply (aggregate_drops_nothing_when_apart twoApart).
  - repeat constructor.
  - vm_compute. repeat constructor.
Defined.

(** ** The registry as a map from span keys *)

Lemma JsMap_get_set_eq {V} k (v : V) (m : list (string * V)) :
  JsMap.get k (JsMap.set k v m) = Some v.
Proof.
  induction m as [|[k' v'] m IH]; simpl.
  - by rewrite decide_True.
  - case_decide as Hk; simpl.
    + by rewrite decide_True.
    + by rewrite decide_False.
Qed.

Lemma JsMap_get_set_ne {V} k k' (v : V) (m : list (string * V)) :
  k ≠ k' → JsMap.get k' (JsMap.set k v m) = JsMap.get k' m.
Proof.
  intros Hne. induction m as [|[k0 v0] m IH]; simpl.
  - by rewrite decide_False.
  - case_decide as Hk; simpl.
    + subst k0. by rewrite !decide_False.
    + case_decide; [done|]. apply IH.
Qed.

Lemma JsMap_set_keys {V} k (v : V) (m : list (string * V)) :
  (JsMap.set k v m).*1 = if decide (k ∈ m.*1) then m.*1 else m.*1 ++ [k].
Proof.
  induction m as [|[k' v'] m IH].
  - csimpl. destruct (decide (k ∈ [])) as [Hin|_]; [|done].
    by apply elem_of_nil in Hin.
  - simpl JsMap.set. destruct (decide (k' = k)) as [->|Hk].
    + csimpl. destruct (decide (k ∈ k :: m.*1)) as [_|Hnin]; [done|].
      destruct Hnin. apply list_elem_of_here.
    + rewrite fmap_cons, IH. csimpl.
      destruct (decide (k ∈ m.*1)) as [Hin|Hnin];
        destruct (decide (k ∈ k' :: m.*1)) as [Hin'|Hnin']; try done.
      * destruct Hnin'. by apply list_elem_of_further.
      * apply elem_of_cons in Hin' as [->|?]; done.
Qed.

Lemma JsMap_set_NoDup {V} k (v : V) (m : list (string * V)) :
  NoDup m.*1 → NoDup (JsMap.set k v m).*1.
Proof.
  intros Hm. rewrite JsMap_set_keys. case_decide as Hin; [done|].
  apply NoDup_app. split; [done|]. split; [|apply NoDup_singleton].
  intros x Hx ->%list_elem_of_singleton. done.
Qed.

Lemma JsMap_set_Forall_entry {V} (P : string * V → Prop) k v (m : list (string * V)) :
  Forall P m → P (k, v) → Forall P (JsMap.set k v m).
Proof.
  intros Hm Hv. induction Hm as [|[k' v'] m Hkv Hm IH]; simpl.
  - by repeat constructor.
  - case_decide as Hk; constructor; auto. by subst k'.
Qed.

Lemma JsMap_set_elem {V} k (v : V) (m : list (string * V)) kv :
  kv ∈ JsMap.set k v m → kv = (k, v) ∨ kv ∈ m.
Proof.
  induction m as [|[k' v'] m IH]; simpl.
  - intros ->%list_elem_of_singleton. by left.
  - case_decide as Hk; rewrite !elem_of_cons; [subst k'|]; intuition congruence.
Qed.

Lemma recordInto_none documentFixes problems :
  existsb hasFix problems = false → recordInto documentFixes problems = documentFixes.
Proof.
  unfold recordInto. revert documentFixes.
  induction problems as [|p ps IH]; intros d; simpl; [done|].
  intros [Hp Hps]%orb_false_iff. rewrite Hp. by apply IH.
Qed.

Lemma recordAll_cons problem problems file actions :
  recordAll (problem :: problems) file actions
  = if hasFix problem
    then recordAll problems file
           (<[SourceFile.fileName file :=
                JsMap.set (keyOf problem) problem
                  (default [] (actions !! SourceFile.fileName file))]> actions)
    else recordAll problems file actions.
Proof.
  unfold recordAll. simpl. destruct (hasFix problem) eqn:Hfix; simpl.
  - rewrite lookup_insert_eq. simpl.
    destruct (existsb hasFix problems) eqn:Hany.
    + by rewrite insert_insert_eq.
    + by rewrite recordInto_none.
  - by destruct (existsb hasFix problems).
Qed.

Lemma set_codeFixActions_id (w : World) : set_codeFixActions (codeFixActions w) w = w.
Proof. by destruct w. Qed.

Lemma set_codeFixActions_twice a b (w : World) :
  set_codeFixActions a (set_codeFixActions b w) = set_codeFixActions a w.
Proof. done. Qed.

(** What the [forEach] over the failures of the document leaves behind:
    with a source file every failure that has a fix is in the file's map,
    without one the first such failure throws before anything is written. *)
Lemma pushDiagnostics_registry {R} config file problems diagnostics (w : World) :
  match file with
  | Some f =>
      pushDiagnostics (R:=R) config file problems diagnostics w
      = (Normal (diagnostics ++ ((λ problem, makeDiagnostic config problem file) <$> problems)),
         set_codeFixActions (recordAll problems f (codeFixActions w)) w)
  | None =>
      if existsb hasFix problems
      then ∃ msg, pushDiagnostics (R:=R) config file problems diagnostics w
                  = (Throw (TypeError msg), w)
      else pushDiagnostics (R:=R) config file problems diagnostics w
           = (Normal (diagnostics
                      ++ ((λ problem, makeDiagnostic config problem file) <$> problems)), w)
  end.
Proof.
  revert diagnostics w. induction problems as [|problem rest IH]; intros diagnostics w.
  - destruct file as [f|]; simpl; rewrite app_nil_r; [|done].
    unfold ret, recordAll. simpl. by rewrite set_codeFixActions_id.
  - simpl pushDiagnostics. unfold bind.
    destruct file as [f|].
    + rewrite recordAll_cons. unfold recordCodeAction, hasFix, keyOf.
      destruct (getFix problem) as [fx|]; simpl;
        [destruct (replacementsAreEmpty fx); simpl|].
      * rewrite (IH _ w). csimpl. by rewrite <-app_assoc.
      * unfold bind, gets, modify. simpl.
        match goal with |- context [pushDiagnostics _ _ _ ?d ?w1] => rewrite (IH d w1) end.
        csimpl. by rewrite <-app_assoc.
      * rewrite (IH _ w). csimpl. by rewrite <-app_assoc.
    + simpl existsb. unfold recordCodeAction. unfold hasFix at 1.
      destruct (getFix problem) as [fx|]; simpl;
        [destruct (replacementsAreEmpty fx); simpl|].
      * specialize (IH (diagnostics ++ [makeDiagnostic config problem None]) w).
        simpl in IH. destruct (existsb hasFix rest); [done|].
        rewrite IH. csimpl. by rewrite <-app_assoc.
      * by eexists.
      * specialize (IH (diagnostics ++ [makeDiagnostic config problem None]) w).
        simpl in IH. destruct (existsb hasFix rest); [done|].
        rewrite IH. csimpl. by rewrite <-app_assoc.
Qed.

(** X7: recording a failure that has a fix puts it under the key of its
    span in the map of the source file's name: a lookup under that key
    finds it, every other key of the map and every other file of the
    registry is as before, and nothing else changes.  Without a source file
    the recording throws and changes nothing. *)
Theorem recordCodeAction_then_lookup (problem : RuleFailure) (file : SourceFile.t)
    (w : World) :
  hasFix problem = true →
  ∃ w' documentFixes,
    recordCodeAction (R:=list Diagnostic.t) problem (Some file) w = (Normal tt, w')
    ∧ w' = set_codeFixActions (codeFixActions w') w
    ∧ codeFixActions w' !! SourceFile.fileName file = Some documentFixes
    ∧ JsMap.get (keyOf problem) documentFixes = Some problem
    ∧ (∀ k, k ≠ keyOf problem →
         JsMap.get k documentFixes
         = JsMap.get k (default [] (codeFixActions w !! SourceFile.fileName file)))
    ∧ (∀ other, other ≠ SourceFile.fileName file →
         codeFixActions w' !! other = codeFixActions w !! other)
    ∧ recordCodeAction (R:=list Diagnostic.t) problem None w
      = (Throw (TypeError "Cannot read property 'fileName' of undefined"), w).
Proof.
  intros Hfix. unfold recordCodeAction. unfold hasFix in Hfix.
  destruct (getFix problem) as [fx|]; [|done].
  destruct (replacementsAreEmpty fx); [done|]. simpl.
  unfold bind, gets, modify. simpl.
  eexists _, _. split; [reflexivity|]. simpl.
  split; [done|]. split; [apply lookup_insert_eq|].
  split; [apply JsMap_get_set_eq|]. split; [|split; [|done]].
  - intros k Hk. by apply JsMap_get_set_ne.
  - intros other Hother. by apply lookup_insert_ne.
Qed.

Lemma recordCodeAction_then_lookup_witness :
  ∃ w' documentFixes,
    recordCodeAction (R:=list Diagnostic.t) fixableFailure (Some sampleSource)
      (initialWorld (sinkHost 0)) = (Normal tt, w')
    ∧ w' = set_codeFixActions (codeFixActions w') (initialWorld (sinkHost 0))
    ∧ codeFixActions w' !! SourceFile.fileName sampleSource = Some documentFixes
    ∧ JsMap.get (keyOf fixableFailure) documentFixes = Some fixableFailure
    ∧ (∀ k, k ≠ keyOf fixableFailure →
         JsMap.get k documentFixes
         = JsMap.get k (default [] (codeFixActions (initialWorld (sinkHost 0))
                                    !! SourceFile.fileName sampleSource)))
    ∧ (∀ other, other ≠ SourceFile.fileName sampleSource →
         codeFixActions w' !! other = codeFixActions (initialWorld (sinkHost 0)) !! other)
    ∧ recordCodeAction (R:=list Diagnostic.t) fixableFailure None (initialWorld (sinkHost 0))
      = (Throw (TypeError "Cannot read property 'fileName' of undefined"),
         initialWorld (sinkHost 0)).
Proof.
  apply (recordCodeAction_then_lookup fixableFailure sampleSource (initialWorld (sinkHost 0))).
  reflexivity.
Defined.

Lemma filterProblemsForDocument_nil tslint fileName :
  filterProblemsForDocument tslint fileName [] = [].
Proof. done. Qed.

Lemma reportFailures_registry config oldLS tslint fileName prior result (w : World) :
  codeFixActions (reportFailures config oldLS tslint fileName prior result w).2
  = match getSourceFile oldLS fileName with
    | Some f =>
        recordAll (filterProblemsForDocument tslint fileName (failures result)) f
                  (codeFixActions w)
    | None => codeFixActions w
    end.
Proof.
  unfold reportFailures.
  case_bool_decide as Hany.
  2:{ destruct (failures result); [|simpl in Hany; lia].
      rewrite filterProblemsForDocument_nil. by destruct (getSourceFile oldLS fileName). }
  case_bool_decide as Hown.
  2:{ destruct (filterProblemsForDocument tslint fileName (failures result));
        [|simpl in Hown; lia].
      by destruct (getSourceFile oldLS fileName). }
  unfold bind.
  pose proof (pushDiagnostics_registry (R:=list Diagnostic.t) config
                (getSourceFile oldLS fileName)
                (filterProblemsForDocument tslint fileName (failures result)) prior w)
    as Hpush.
  destruct (getSourceFile oldLS fileName) as [f|].
  - by rewrite Hpush.
  - destruct (existsb hasFix _).
    + destruct Hpush as [msg ->]. done.
    + by rewrite Hpush.
Qed.

(** The registry after the operation: untouched behind the suppression
    gate; otherwise the file's old entry is gone, and what is recorded
    comes from the failures of the one lint run of the call, if it returned
    and the host has a source file for the document. *)
Lemma getSemanticDiagnostics_registry config oldLS tslint fileName (w : World) :
  let prior := oldGetSemanticDiagnostics oldLS fileName in
  let out := getSemanticDiagnostics config oldLS tslint fileName w in
  if truthy (prop config "supressWhileTypeErrorsPresent")
     && bool_decide (0 < length prior)%nat
  then out = (Ok prior, w)
  else
    ∃ evs,
      engineCalls out.2 = engineCalls w ++ evs
      ∧ (codeFixActions out.2 = delete fileName (codeFixActions w)
         ∧ ((∀ f cfg result, CalledLint f cfg (Ok result) ∉ evs)
            ∨ getSourceFile oldLS fileName = None)
         ∨ ∃ cfg result f,
             CalledLint fileName cfg (Ok result) ∈ evs
             ∧ (∀ f' cfg' outcome, CalledLint f' cfg' outcome ∈ evs → outcome = Ok result)
             ∧ getSourceFile oldLS fileName = Some f
             ∧ codeFixActions out.2
               = recordAll (filterProblemsForDocument tslint fileName (failures result)) f
                           (delete fileName (codeFixActions w))).
Proof.
  intros prior out. subst out. rewrite getSemanticDiagnostics_stages. fold prior.
  destruct (truthy _ && _); [done|].
  destruct (strictlyTrue _ && endsWith _ _).
  { exists []. rewrite app_nil_r. split; [done|]. left. split; [done|].
    left. intros f cfg result Hin. by apply elem_of_nil in Hin. }
  destruct (call _ _) as [r w'] eqn:Hcall. simpl.
  unfold call, try_catch, bind in Hcall.
  destruct (resolveConfiguration_frame config tslint fileName prior (afterClear fileName w))
    as (c1 & w2 & evs1 & Hres & Hreg2 & _ & _ & Hev2 & Hno & Hc1).
  rewrite Hres in Hcall. simpl in Hreg2, Hev2.
  assert (∀ f cfg result, CalledLint f cfg (Ok result) ∉ evs1) as Hno1.
  { intros f cfg result Hin. rewrite Forall_forall in Hno. by apply (Hno _ Hin). }
  destruct Hc1 as [->|[->|[msg ->]]]; simpl in Hcall.
  2:{ injection Hcall as <- <-. exists evs1. split; [done|]. left. split; [done|by left]. }
  2:{ injection Hcall as <- <-. exists evs1. split; [done|]. left. split; [done|by left]. }
  destruct (lintFile_frame tslint fileName prior w2)
    as (c2 & w3 & outcome & Hlint & Hreg3 & _ & _ & Hev3 & Hout).
  rewrite Hlint in Hcall.
  assert (engineCalls w3
          = engineCalls w ++ evs1 ++ [CalledLint fileName (configuration w2) outcome])
    as Hev by (rewrite Hev3, Hev2; by rewrite <-app_assoc).
  assert (codeFixActions w3 = delete fileName (codeFixActions w)) as Hreg by congruence.
  assert (∀ f cfg o,
    CalledLint f cfg o ∈ evs1 ++ [CalledLint fileName (configuration w2) outcome] →
    o = outcome) as Hone.
  { intros f cfg o [Hin|Hin]%elem_of_app.
    - rewrite Forall_forall in Hno. by destruct (Hno _ Hin).
    - apply list_elem_of_singleton in Hin. congruence. }
  destruct outcome as [result|[|m s st]].
  - subst c2.
    destruct (reportFailures_frame config oldLS tslint fileName prior result w3)
      as (c3 & w4 & Hrep & _ & _ & Hev4 & _ & _ & Hc3).
    pose proof (reportFailures_registry config oldLS tslint fileName prior result w3)
      as Hreg4.
    rewrite Hrep in Hcall, Hreg4. simpl in Hreg4. rewrite Hreg in Hreg4.
    exists (evs1 ++ [CalledLint fileName (configuration w2) (Ok result)]).
    assert (engineCalls w4
            = engineCalls w ++ evs1 ++ [CalledLint fileName (configuration w2) (Ok result)])
      as Hev' by congruence.
    assert (codeFixActions w4 = delete fileName (codeFixActions w)
            ∧ ((∀ f cfg result0,
                  CalledLint f cfg (Ok result0)
                  ∉ evs1 ++ [CalledLint fileName (configuration w2) (Ok result)])
               ∨ getSourceFile oldLS fileName = None)
            ∨ ∃ cfg result0 f,
                CalledLint fileName cfg (Ok result0)
                ∈ evs1 ++ [CalledLint fileName (configuration w2) (Ok result)]
                ∧ (∀ f' cfg' outcome,
                     CalledLint f' cfg' outcome
                     ∈ evs1 ++ [CalledLint fileName (configuration w2) (Ok result)] →
                     outcome = Ok result0)
                ∧ getSourceFile oldLS fileName = Some f
                ∧ codeFixActions w4
                  = recordAll (filterProblemsForDocument tslint fileName (failures result0))
                              f (delete fileName (codeFixActions w))) as Hfinal.
    { destruct (getSourceFile oldLS fileName) as [f|]; [|left; split; [done|by right]].
      right. exists (configuration w2), result, f. split; [|done].
      apply elem_of_app. right. by apply list_elem_of_singleton. }
    destruct Hc3 as [->|[->|[msg ->]]]; simpl in Hcall; injection Hcall as <- <-;
      by split.
  - destruct Hout as [msg ->]. simpl in Hcall. injection Hcall as <- <-.
    eexists. split; [exact Hev|]. left. split; [done|]. left.
    intros f cfg result Hin. by apply Hone in Hin.
  - destruct Hout as [-> _]. simpl in Hcall. injection Hcall as <- <-.
    eexists. split; [exact Hev|]. left. split; [done|]. left.
    intros f cfg result Hin. by apply Hone in Hin.
Qed.

(** ** What a pass leaves in the registry *)

Lemma recordInto_cons documentFixes problem problems :
  recordInto documentFixes (problem :: problems)
  = recordInto (if hasFix problem
                then JsMap.set (keyOf problem) problem documentFixes
                else documentFixes) problems.
Proof. done. Qed.

Lemma recordInto_keyed documentFixes problems :
  NoDup documentFixes.*1 → Forall (λ kv, kv.1 = keyOf kv.2) documentFixes →
  NoDup (recordInto documentFixes problems).*1
  ∧ Forall (λ kv, kv.1 = keyOf kv.2) (recordInto documentFixes problems).
Proof.
  revert documentFixes.
  induction problems as [|p ps IH]; intros d Hnd Hkeyed; [done|].
  rewrite recordInto_cons. destruct (hasFix p); [|by apply IH].
  apply IH; [by apply JsMap_set_NoDup|by apply JsMap_set_Forall_entry].
Qed.

Lemma recordInto_elem documentFixes problems kv :
  kv ∈ recordInto documentFixes problems →
  kv ∈ documentFixes ∨ kv.2 ∈ problems ∧ hasFix kv.2 = true.
Proof.
  revert documentFixes.
  induction problems as [|p ps IH]; intros d; [by left|].
  rewrite recordInto_cons. intros Hin. apply IH in Hin as [Hin|[Hin Hfix]].
  - destruct (hasFix p) eqn:Hp; [|by left].
    apply JsMap_set_elem in Hin as [->|Hin]; [|by left].
    right. split; [apply list_elem_of_here|done].
  - right. split; [by apply list_elem_of_further|done].
Qed.

Lemma recordInto_get k documentFixes problems :
  JsMap.get k (recordInto documentFixes problems)
  = match lastRecorded k problems with
    | Some problem => Some problem
    | None => JsMap.get k documentFixes
    end.
Proof.
  unfold lastRecorded. revert documentFixes.
  induction problems as [|p ps IH]; intros d; [done|].
  rewrite recordInto_cons, IH, filter_cons.
  destruct (decide (hasFix p = true ∧ keyOf p = k)) as [[Hfix <-]|Hno].
  - rewrite Hfix, JsMap_get_set_eq.
    destruct (filter _ ps) as [|q qs] eqn:Hfilter; [done|].
    rewrite last_cons_cons.
    destruct (last (q :: qs)) eqn:Hlast; [done|]. by apply last_None in Hlast.
  - destruct (last (filter _ ps)); [done|].
    destruct (hasFix p) eqn:Hfix; [|done].
    apply JsMap_get_set_ne. naive_solver.
Qed.

Lemma registry_keyed_initial warn : registry_keyed (codeFixActions (initialWorld warn)).
Proof. intros file doc. simpl. by rewrite lookup_empty. Qed.

Lemma registry_keyed_delete fileName actions :
  registry_keyed actions → registry_keyed (delete fileName actions).
Proof. intros Hk file doc [_ Hdoc]%lookup_delete_Some. by eapply Hk. Qed.

Lemma registry_keyed_recordAll problems file actions :
  registry_keyed actions → registry_keyed (recordAll problems file actions).
Proof.
  intros Hk. unfold recordAll. destruct (existsb hasFix problems); [|done].
  intros g doc. rewrite lookup_insert. case_decide as Hg; [|by apply Hk].
  intros [= <-]. apply recordInto_keyed.
  - destruct (actions !! SourceFile.fileName file) as [d|] eqn:Hd; simpl.
    + by apply (Hk _ _ Hd).
    + constructor.
  - destruct (actions !! SourceFile.fileName file) as [d|] eqn:Hd; simpl.
    + by apply (Hk _ _ Hd).
    + constructor.
Qed.

Lemma registry_keyed_getSemanticDiagnostics config oldLS tslint fileName (w : World) :
  registry_keyed (codeFixActions w) →
  registry_keyed (codeFixActions (getSemanticDiagnostics config oldLS tslint fileName w).2).
Proof.
  intros Hk.
  pose proof (getSemanticDiagnostics_registry config oldLS tslint fileName w) as Hreg.
  simpl in Hreg. destruct (truthy _ && _); [by rewrite Hreg|].
  destruct Hreg as (evs & _ & [[-> _]|(cfg & result & f & _ & _ & _ & ->)]).
  - by apply registry_keyed_delete.
  - by apply registry_keyed_recordAll, registry_keyed_delete.
Qed.

Lemma registry_keyed_lintedWorld found : registry_keyed (codeFixActions (lintedWorld found)).
Proof. apply registry_keyed_getSemanticDiagnostics, registry_keyed_initial. Qed.

(** X8: in the registry every failure sits under the key of its own span
    and no key occurs twice in the map of a file; the diagnostics operation
    keeps it that way, from the empty registry on. *)
Theorem registry_stays_keyed config oldLS tslint fileName (w : World) :
  registry_keyed (codeFixActions w) →
  registry_keyed (codeFixActions (initialWorld (console_warn w)))
  ∧ registry_keyed (codeFixActions (getSemanticDiagnostics config oldLS tslint fileName w).2).
Proof.
  intros Hk. split; [apply registry_keyed_initial|].
  by apply registry_keyed_getSemanticDiagnostics.
Qed.

Lemma registry_stays_keyed_witness :
  registry_keyed (codeFixActions (initialWorld (console_warn (initialWorld (sinkHost 0)))))
  ∧ registry_keyed (codeFixActions (lintedWorld [fixableFailure; secondSemicolon])).
Proof.
  apply (registry_stays_keyed ∅ (sampleHost [])
           (reportingEngine [fixableFailure; secondSemicolon]) "a.ts"
           (initialWorld (sinkHost 0))).
  apply registry_keyed_initial.
Defined.

(** X9: the failure that the code-fixes operation finds under the key of
    the queried span has exactly that span. *)
Theorem located_failure_has_queried_span fileName start end_ (w : World)
    documentFixes problem :
  registry_keyed (codeFixActions w) →
  codeFixActions w !! fileName = Some documentFixes →
  JsMap.get (computeKey start end_) documentFixes = Some problem →
  getPosition (getStartPosition problem) = start
  ∧ getPosition (getEndPosition problem) = end_.
Proof.
  intros Hk Hdoc Hget. destruct (Hk _ _ Hdoc) as [_ Hkeyed].
  apply JsMap_get_elem in Hget. rewrite Forall_forall in Hkeyed.
  specialize (Hkeyed _ Hget). simpl in Hkeyed.
  symmetry in Hkeyed. by apply computeKey_eq_inv in Hkeyed.
Qed.

Lemma located_failure_has_queried_span_witness :
  getPosition (getStartPosition secondSemicolon) = 30
  ∧ getPosition (getEndPosition secondSemicolon) = 32.
Proof.
  apply (located_failure_has_queried_span "a.ts" 30 32
           (lintedWorld [fixableFailure; secondSemicolon])
           [(computeKey 10 12, fixableFailure); (computeKey 30 32, secondSemicolon)]).
  - apply registry_keyed_lintedWorld.
  - by vm_compute.
  - by vm_compute.
Defined.

(** ** Failures without a usable fix *)

(** C10, as the code has it: the registry only ever holds failures with a
    fix that has replacements, and recording a failure without one changes
    nothing, so such a failure is in no entry of the registry.  When no
    failure recorded for the file has the span of such a failure, the
    code-fixes operation at that span locates no problem and adds none of
    the single-fix, fix-all-of-rule and disable-rule actions; it adds the
    fix-all-auto-fixable action, and nothing else, when the call passes the
    suppression gate and the file has a registry entry, and nothing at all
    otherwise. *)
Theorem unfixable_failure_never_recorded config oldLS tslint fileName errorCodes
    (w : World) problem file :
  registry_ok (codeFixActions w) →
  registry_keyed (codeFixActions w) →
  hasFix problem = false →
  let start := getPosition (getStartPosition problem) in
  let end_ := getPosition (getEndPosition problem) in
  let prior := oldGetCodeFixesAtPosition oldLS fileName start end_ errorCodes in
  let recorded := JsMap.values (default [] (codeFixActions w !! fileName)) in
  registry_ok (codeFixActions (initialWorld (console_warn w)))
  ∧ registry_ok (codeFixActions (getSemanticDiagnostics config oldLS tslint fileName w).2)
  ∧ recordCodeAction (R:=list Diagnostic.t) problem file w = (Normal tt, w)
  ∧ (problem ∉ recorded)
  ∧ (Forall (λ other, spanOf other ≠ spanOf problem) recorded →
     JsMap.get (computeKey start end_) (default [] (codeFixActions w !! fileName)) = None
     ∧ (getCodeFixesAtPosition config oldLS fileName start end_ errorCodes w).1
       = Ok (prior
             ++ (match codeFixActions w !! fileName with
                 | Some documentFixes =>
                     if truthy (prop config "supressWhileTypeErrorsPresent")
                        && bool_decide (0 < length prior)%nat
                     then []
                     else [fixAllAutoFixable documentFixes fileName]
                 | None => []
                 end))).
Proof.
  intros Hok Hkeyed Hfix start end_ prior recorded. subst recorded.
  split; [apply registry_ok_initial|].
  split; [by apply registry_ok_getSemanticDiagnostics|].
  split; [|split].
  - destruct (recordCodeAction_frame (R:=list Diagnostic.t) problem file w)
      as (c & w' & -> & _ & _ & _ & _ & _ & Hskip).
    by destruct (Hskip Hfix) as [-> ->].
  - destruct (codeFixActions w !! fileName) as [documentFixes|] eqn:Hdoc; simpl.
    + intros ([k p] & -> & Hin)%list_elem_of_fmap.
      pose proof (Hok _ _ Hdoc) as Hall. rewrite Forall_forall in Hall.
      specialize (Hall _ Hin). simpl in *. congruence.
    + apply not_elem_of_nil.
  - intros Hspan.
    assert (JsMap.get (computeKey start end_) (default [] (codeFixActions w !! fileName))
            = None) as Hget.
    { destruct (codeFixActions w !! fileName) as [documentFixes|] eqn:Hdoc; simpl in *;
        [|done].
      destruct (JsMap.get (computeKey start end_) documentFixes) as [other|] eqn:Hother;
        [|done].
      exfalso. apply JsMap_get_elem in Hother.
      destruct (Hkeyed _ _ Hdoc) as [_ Hentries]. rewrite Forall_forall in Hentries.
      pose proof (Hentries _ Hother) as Hkey. simpl in Hkey.
      apply computeKey_eq_inv in Hkey as [Hs He].
      rewrite Forall_forall in Hspan. apply (Hspan other).
      - apply list_elem_of_fmap. by exists (computeKey start end_, other).
      - unfold spanOf. by rewrite <-Hs, <-He. }
    split; [done|].
    pose proof (getCodeFixesAtPosition_spec config oldLS fileName start end_ errorCodes w Hok)
      as Hspec.
    simpl in Hspec. fold prior in Hspec.
    destruct (truthy _ && _).
    + rewrite Hspec. simpl. destruct (codeFixActions w !! fileName); by rewrite app_nil_r.
    + destruct Hspec as [_ ->].
      destruct (codeFixActions w !! fileName) as [documentFixes|]; simpl in *.
      * by rewrite Hget.
      * by rewrite app_nil_r.
Qed.

Lemma unfixable_failure_never_recorded_witness :
  let w := lintedWorld [fixableFailure; unfixableFailure] in
  registry_ok (codeFixActions (initialWorld (console_warn w)))
  ∧ registry_ok (codeFixActions
      (getSemanticDiagnostics ∅ (sampleHost []) (reportingEngine []) "a.ts" w).2)
  ∧ recordCodeAction (R:=list Diagnostic.t) unfixableFailure (Some sampleSource) w
    = (Normal tt, w)
  ∧ (unfixableFailure ∉ JsMap.values (default [] (codeFixActions w !! "a.ts")))
  ∧ JsMap.get (computeKey 0 5) (default [] (codeFixActions w !! "a.ts")) = None
  ∧ (getCodeFixesAtPosition ∅ (sampleHost []) "a.ts" 0 5 [TSLINT_ERROR_CODE] w).1
    = Ok [fixAllAutoFixable [(computeKey 10 12, fixableFailure)] "a.ts"].
Proof.
  intros w.
  destruct (unfixable_failure_never_recorded ∅ (sampleHost []) (reportingEngine []) "a.ts"
              [TSLINT_ERROR_CODE] w unfixableFailure (Some sampleSource))
    as (Hinitial & Hafter & Hrecord & Hnot & Hspan).
  - apply registry_ok_lintedWorld.
  - apply registry_keyed_lintedWorld.
  - reflexivity.
  - assert (Forall (λ other, spanOf other ≠ spanOf unfixableFailure)
                   (JsMap.values (default [] (codeFixActions w !! "a.ts")))) as Hcond.
    { vm_compute. constructor; [discriminate|constructor]. }
    destruct (Hspan Hcond) as [Hget Hout].
    split; [exact Hinitial|]. split; [exact Hafter|]. split; [exact Hrecord|].
    split; [exact Hnot|]. split; [exact Hget|exact Hout].
Defined.

(** C10, as stated, fails in two ways.  After a pass that reported a fixable
    failure and one without a fix, the code-fixes operation at the span of
    the latter locates no problem and yet offers the fix-all-auto-fixable
    action.  And after a pass that reported a fixable failure and one
    without a fix at the same span, the operation at that span locates the
    fixable failure and offers its fix and the disabling comment for its
    rule. *)
Lemma fix_all_offered_at_unfixable_span :
  let w := lintedWorld [fixableFailure; unfixableFailure] in
  let out := getCodeFixesAtPosition ∅ (sampleHost []) "a.ts" 0 5 [TSLINT_ERROR_CODE] w in
  let w' := lintedWorld [fixableFailure; unfixableAtSemicolon] in
  let out' := getCodeFixesAtPosition ∅ (sampleHost []) "a.ts" 10 12 [TSLINT_ERROR_CODE] w' in
  (getFix unfixableFailure = None
   ∧ spanOf unfixableFailure = (0, 5)
   ∧ codeFixActions w !! "a.ts" = Some [(computeKey 10 12, fixableFailure)]
   ∧ oldGetCodeFixesAtPosition (sampleHost []) "a.ts" 0 5 [TSLINT_ERROR_CODE] = []
   ∧ out.1 = Ok [fixAllAutoFixable [(computeKey 10 12, fixableFailure)] "a.ts"]
   ∧ out.1 ≠ Ok [])
  ∧ (getFix unfixableAtSemicolon = None
     ∧ spanOf unfixableAtSemicolon = (10, 12)
     ∧ codeFixActions w' !! "a.ts" = Some [(computeKey 10 12, fixableFailure)]
     ∧ out'.1 = Ok [singleFix fixableFailure "a.ts";
                    fixAllAutoFixable [(computeKey 10 12, fixableFailure)] "a.ts";
                    disableRuleOnLine fixableFailure "a.ts" sampleSource]).
Proof. repeat split; by vm_compute. Qed.

(** X10: past the suppression gate nothing of an earlier pass is left in
    the entry of the file: every failure found there afterwards has a fix
    and was reported for this file by the lint run of this call. *)
Theorem registry_entry_is_of_this_pass config oldLS tslint fileName (w : World) problem :
  truthy (prop config "supressWhileTypeErrorsPresent")
  && bool_decide (0 < length (oldGetSemanticDiagnostics oldLS fileName))%nat = false →
  problem ∈ JsMap.values
              (default [] (codeFixActions
                             (getSemanticDiagnostics config oldLS tslint fileName w).2
                           !! fileName)) →
  hasFix problem = true
  ∧ ∃ evs cfg result,
      engineCalls (getSemanticDiagnostics config oldLS tslint fileName w).2
      = engineCalls w ++ evs
      ∧ CalledLint fileName cfg (Ok result) ∈ evs
      ∧ problem ∈ filterProblemsForDocument tslint fileName (failures result).
Proof.
  intros Hgate.
  pose proof (getSemanticDiagnostics_registry config oldLS tslint fileName w) as Hreg.
  simpl in Hreg. rewrite Hgate in Hreg.
  destruct Hreg as (evs & Hev & [[-> _]|(cfg & result & f & Hin & _ & _ & ->)]).
  { rewrite lookup_delete_eq. simpl. by intros ?%elem_of_nil. }
  unfold recordAll. destruct (existsb hasFix _).
  2:{ rewrite lookup_delete_eq. simpl. by intros ?%elem_of_nil. }
  rewrite lookup_insert.
  destruct (decide (SourceFile.fileName f = fileName)) as [Hname|Hname].
  2:{ rewrite lookup_delete_eq. simpl. by intros ?%elem_of_nil. }
  rewrite Hname, lookup_delete_eq. simpl.
  intros ([k p] & -> & Hrec)%list_elem_of_fmap.
  apply recordInto_elem in Hrec as [Hrec|[Hrec Hfix]]; [by apply elem_of_nil in Hrec|].
  split; [done|]. by exists evs, cfg, result.
Qed.

Lemma registry_entry_is_of_this_pass_witness :
  hasFix fixableFailure = true
  ∧ ∃ evs cfg result,
      engineCalls (getSemanticDiagnostics ∅ (sampleHost [])
                     (reportingEngine [fixableFailure; unfixableFailure]) "a.ts"
                     (lintedWorld [secondSemicolon])).2
      = engineCalls (lintedWorld [secondSemicolon]) ++ evs
      ∧ CalledLint "a.ts" cfg (Ok result) ∈ evs
      ∧ fixableFailure
        ∈ filterProblemsForDocument (reportingEngine [fixableFailure; unfixableFailure])
            "a.ts" (failures result).
Proof.
  apply (registry_entry_is_of_this_pass ∅ (sampleHost [])
           (reportingEngine [fixableFailure; unfixableFailure]) "a.ts"
           (lintedWorld [secondSemicolon]) fixableFailure).
  - reflexivity.
  - vm_compute. apply list_elem_of_here.
Defined.

(** X11: when the host has a source file for the document and that file
    bears the queried name, a failure with a fix that the lint run reported
    for the file is offered at its own span afterwards: once the
    diagnostics operation has recorded the failures of the run, the
    code-fixes operation at the span of the failure (the last one reported
    with that span) finds it and answers with the host's fixes, the
    failure's own fix, the fix-all actions and the disabling comment, in
    this order. *)
Theorem reported_fix_is_offered config oldLS tslint fileName errorCodes (w : World)
    evs cfg result file problem :
  registry_ok (codeFixActions w) →
  truthy (prop config "supressWhileTypeErrorsPresent")
  && bool_decide (0 < length (oldGetSemanticDiagnostics oldLS fileName))%nat = false →
  engineCalls (getSemanticDiagnostics config oldLS tslint fileName w).2
  = engineCalls w ++ evs →
  CalledLint fileName cfg (Ok result) ∈ evs →
  getSourceFile oldLS fileName = Some file →
  SourceFile.fileName file = fileName →
  lastRecorded (keyOf problem) (filterProblemsForDocument tslint fileName (failures result))
  = Some problem →
  truthy (prop config "supressWhileTypeErrorsPresent")
  && bool_decide
       (0 < length (oldGetCodeFixesAtPosition oldLS fileName
                      (getPosition (getStartPosition problem))
                      (getPosition (getEndPosition problem)) errorCodes))%nat = false →
  let w' := (getSemanticDiagnostics config oldLS tslint fileName w).2 in
  let documentFixes :=
    recordInto [] (filterProblemsForDocument tslint fileName (failures result)) in
  let start := getPosition (getStartPosition problem) in
  let end_ := getPosition (getEndPosition problem) in
  codeFixActions w' !! fileName = Some documentFixes
  ∧ (getCodeFixesAtPosition config oldLS fileName start end_ errorCodes w').1
    = Ok (oldGetCodeFixesAtPosition oldLS fileName start end_ errorCodes
          ++ [singleFix problem fileName]
          ++ fixAllOfRule (getRuleName problem) documentFixes fileName
          ++ [fixAllAutoFixable documentFixes fileName;
              disableRuleOnLine problem fileName file]).
Proof.
  intros Hok Hgate Hev Hin Hfile Hname Hlast Hgate' w' documentFixes start end_.
  pose proof (getSemanticDiagnostics_registry config oldLS tslint fileName w) as Hreg.
  simpl in Hreg. rewrite Hgate in Hreg. fold w' in Hreg, Hev.
  destruct Hreg as (evs' & Hev' & Hreg).
  rewrite Hev in Hev'. apply app_inv_head in Hev' as <-.
  destruct Hreg as [[_ [Hnone|Hnone]]|(cfg' & result' & f & _ & Hone & Hf & Hreg)].
  { by destruct (Hnone _ _ _ Hin). }
  { congruence. }
  apply Hone in Hin as [= <-]. rewrite Hfile in Hf. injection Hf as <-.
  assert (hasFix problem = true) as Hfix.
  { unfold lastRecorded in Hlast. apply last_Some_elem_of in Hlast.
    by apply list_elem_of_filter in Hlast as [[? _] _]. }
  assert (existsb hasFix (filterProblemsForDocument tslint fileName (failures result)) = true)
    as Hany.
  { apply existsb_exists. exists problem. split; [|done].
    unfold lastRecorded in Hlast. apply last_Some_elem_of in Hlast.
    apply list_elem_of_filter in Hlast as [_ Hmem]. by apply list_elem_of_In. }
  assert (codeFixActions w' !! fileName = Some documentFixes) as Hdoc.
  { rewrite Hreg. unfold recordAll. rewrite Hany, Hname, lookup_insert_eq.
    by rewrite lookup_delete_eq. }
  split; [done|].
  pose proof (getCodeFixesAtPosition_spec config oldLS fileName start end_ errorCodes w'
                (registry_ok_getSemanticDiagnostics _ _ _ _ _ Hok)) as Hspec.
  simpl in Hspec. subst start end_. rewrite Hgate', Hdoc in Hspec.
  destruct Hspec as [_ Hout]. rewrite Hout.
  change (computeKey (getPosition (getStartPosition problem))
                     (getPosition (getEndPosition problem))) with (keyOf problem).
  subst documentFixes. rewrite recordInto_get, Hlast, Hfile. done.
Qed.

Lemma reported_fix_is_offered_witness :
  let tslint := reportingEngine [fixableFailure; unfixableFailure; secondSemicolon] in
  let w' := (getSemanticDiagnostics ∅ (sampleHost []) tslint "a.ts"
               (initialWorld (sinkHost 0))).2 in
  let documentFixes :=
    recordInto [] (filterProblemsForDocument tslint "a.ts"
                     (failures {| failures := [fixableFailure; unfixableFailure;
                                               secondSemicolon] |})) in
  let start := getPosition (getStartPosition secondSemicolon) in
  let end_ := getPosition (getEndPosition secondSemicolon) in
  codeFixActions w' !! "a.ts" = Some documentFixes
  ∧ (getCodeFixesAtPosition ∅ (sampleHost []) "a.ts" start end_ [TSLINT_ERROR_CODE] w').1
    = Ok (oldGetCodeFixesAtPosition (sampleHost []) "a.ts" start end_ [TSLINT_ERROR_CODE]
          ++ [singleFix secondSemicolon "a.ts"]
          ++ fixAllOfRule (getRuleName secondSemicolon) documentFixes "a.ts"
          ++ [fixAllAutoFixable documentFixes "a.ts";
              disableRuleOnLine secondSemicolon "a.ts" sampleSource]).
Proof.
  set (cfg := Some {| rules := deleteNoUnusedVariable (rules sampleConfiguration);
                      jsRules := deleteNoUnusedVariable (jsRules sampleConfiguration);
                      linterOptions := None |}).
  set (result := {| failures := [fixableFailure; unfixableFailure; secondSemicolon] |}).
  apply (reported_fix_is_offered ∅ (sampleHost [])
           (reportingEngine [fixableFailure; unfixableFailure; secondSemicolon]) "a.ts"
           [TSLINT_ERROR_CODE] (initialWorld (sinkHost 0))
           [CalledFindConfigurationPath JsUndefined "a.ts";
            CalledFindConfiguration JsUndefined "a.ts";
            CalledLint "a.ts" cfg (Ok result)]
           cfg result sampleSource secondSemicolon).
  - apply registry_ok_initial.
  - reflexivity.
  - by vm_compute.
  - do 2 apply list_elem_of_further. apply list_elem_of_here.
  - reflexivity.
  - reflexivity.
  - by vm_compute.
  - reflexivity.
Defined.

(** ** Suffixes *)

Lemma append_assoc (a b c : string) : (a +:+ b) +:+ c = a +:+ (b +:+ c).
Proof.
  induction a as [|x a IH]; [done|].
  change (String x ((a +:+ b) +:+ c) = String x (a +:+ b +:+ c)). by rewrite IH.
Qed.

Lemma rev_app_append (a c : string) : String.rev_app a c = String.rev_app a "" +:+ c.
Proof.
  revert c. induction a as [|x a IH]; intros c; simpl; [done|].
  rewrite (IH (String x c)), (IH (String x "")).
  by rewrite append_assoc.
Qed.

Lemma rev_append (a b : string) : String.rev (a +:+ b) = String.rev b +:+ String.rev a.
Proof.
  unfold String.rev. rewrite <-rev_app_append. generalize "".
  induction a as [|x a IH]; intros c; [done|].
  change (String.rev_app (a +:+ b) (String x c) = String.rev_app b (String.rev_app a (String x c))).
  apply IH.
Qed.

Lemma append_empty_r (s : string) : s +:+ "" = s.
Proof.
  induction s as [|x s IH]; [done|].
  change (String x (s +:+ "") = String x s). by rewrite IH.
Qed.

Lemma rev_involutive (s : string) : String.rev (String.rev s) = s.
Proof.
  induction s as [|x s IH]; [done|].
  change (String x s) with (String x "" +:+ s) at 1.
  rewrite rev_append, rev_append, IH. done.
Qed.

Lemma prefix_iff (a b : string) : String.prefix a b = true ↔ ∃ c, b = a +:+ c.
Proof.
  revert b. induction a as [|x a IH]; intros b.
  - destruct b; simpl; split; eauto.
  - destruct b as [|y b]; simpl.
    + split; [done|]. by intros [c ?].
    + destruct (Ascii.ascii_dec x y) as [->|Hne].
      * rewrite IH. split; intros [c Hc]; exists c.
        -- change (String y b = String y (a +:+ c)). by rewrite Hc.
        -- change (String y b = String y (a +:+ c)) in Hc. congruence.
      * split; [done|]. intros [c Hc].
        change (String y b = String x (a +:+ c)) in Hc. congruence.
Qed.

Lemma endsWith_iff (s suffix : string) :
  endsWith s suffix = true ↔ ∃ stem, s = stem +:+ suffix.
Proof.
  unfold endsWith. rewrite prefix_iff. split.
  - intros [c Hc]. exists (String.rev c).
    by rewrite <-(rev_involutive s), Hc, rev_append, rev_involutive.
  - intros [stem ->]. exists (String.rev stem). apply rev_append.
Qed.

(** ** The gates before the lint run *)

Lemma getConfiguration_cache_only {R} config tslint filePath configFileName (w1 w2 : World) :
  configCache w1 = configCache w2 →
  (getConfiguration (R:=R) config tslint filePath configFileName w1).1
  = (getConfiguration (R:=R) config tslint filePath configFileName w2).1.
Proof.
  intros Hcache. unfold getConfiguration, bind, gets, modify, liftR, ret, throw.
  rewrite Hcache. destruct (_ && _); [done|]. simpl.
  destruct (findConfigurationPath _ _ _) as [foundPath|e]; simpl; [|done].
  destruct (findConfiguration _ _ _) as [res|e]; simpl; [|done].
  destruct (ConfigurationLoadResult.error res) as [[|m s st]|];
    destruct (prop config "disableNoUnusedVariableRule") as [| |[]| |];
    destruct (ConfigurationLoadResult.results res); done.
Qed.

(** How the block that resolves the configuration ends, by the way the
    lookup ends. *)
Lemma resolveConfiguration_outcome config tslint fileName prior (w : World) :
  let out := resolveConfiguration config tslint fileName prior w in
  match (getConfiguration (R:=list Diagnostic.t) config tslint fileName
           (prop config "configFile") w).1 with
  | Normal (Some c) =>
      out.1 = if excludes tslint c fileName then Return prior else Normal tt
  | Normal None =>
      out.1 = Return prior
  | Throw (ThrownValue message _ _) =>
      out.1 = Return prior
      ∧ last (logger out.2)
        = Some ("tslint: Cannot read tslint configuration - '"
                +:+ default "unknown error" message +:+ "'")
  | Throw ThrownNullish => thrownTypeError out.1
  | Return _ => True
  end.
Proof.
  unfold resolveConfiguration, try_catch, bind, excludes, modify, return_, ret, throw,
    logger_info, liftR.
  destruct (getConfiguration config tslint fileName (prop config "configFile") w)
    as [[[c|]|r|[|m s st]] w1]; simpl; try done.
  - destruct (linterOptions c) as [[[patterns|]]|]; simpl; try done.
    by destruct (existsb _ _).
  - by eexists.
  - split; [done|]. by rewrite last_snoc.
Qed.

(** X12: with [ignoreDefinitionFiles] strictly [true], a call for a file
    whose name ends in [.d.ts] that passes the suppression gate returns the
    host's diagnostics, drops the file's registry entry, and reaches neither
    the configuration lookup nor the engine: engine calls and the
    configuration cache are as before. *)
Theorem definition_files_are_skipped config oldLS tslint stem (w : World) :
  let fileName := stem +:+ ".d.ts" in
  let prior := oldGetSemanticDiagnostics oldLS fileName in
  let out := getSemanticDiagnostics config oldLS tslint fileName w in
  truthy (prop config "supressWhileTypeErrorsPresent")
    && bool_decide (0 < length prior)%nat = false →
  strictlyTrue (prop config "ignoreDefinitionFiles") = true →
  out.1 = Ok prior
  ∧ codeFixActions out.2 = delete fileName (codeFixActions w)
  ∧ engineCalls out.2 = engineCalls w
  ∧ configCache out.2 = configCache w
  ∧ configuration out.2 = configuration w.
Proof.
  intros fileName prior out Hgate Hignore. subst out.
  rewrite getSemanticDiagnostics_stages. fold prior. rewrite Hgate, Hignore.
  assert (endsWith fileName ".d.ts" = true) as -> by (apply endsWith_iff; by exists stem).
  done.
Qed.

Lemma definition_files_are_skipped_witness :
  let config : gmap string JsValue := {[ "ignoreDefinitionFiles" := JsBool true ]} in
  let w := lintedWorld [fixableFailure] in
  let fileName := "lib" +:+ ".d.ts" in
  let prior := oldGetSemanticDiagnostics (sampleHost []) fileName in
  let out := getSemanticDiagnostics config (sampleHost []) (reportingEngine []) fileName w in
  out.1 = Ok prior
  ∧ codeFixActions out.2 = delete fileName (codeFixActions w)
  ∧ engineCalls out.2 = engineCalls w
  ∧ configCache out.2 = configCache w
  ∧ configuration out.2 = configuration w.
Proof.
  apply (definition_files_are_skipped
           {[ "ignoreDefinitionFiles" := JsBool true ]} (sampleHost []) (reportingEngine [])
           "lib" (lintedWorld [fixableFailure])); reflexivity.
Defined.

(** X13: when the configuration found for the file lists an exclusion
    pattern that matches the file name, a call that passes the two earlier
    gates returns the host's diagnostics, leaves the file without a registry
    entry and never runs the linter. *)
Theorem excluded_file_is_not_linted config oldLS tslint fileName c (w : World) :
  let prior := oldGetSemanticDiagnostics oldLS fileName in
  let out := getSemanticDiagnostics config oldLS tslint fileName w in
  truthy (prop config "supressWhileTypeErrorsPresent")
    && bool_decide (0 < length prior)%nat = false →
  strictlyTrue (prop config "ignoreDefinitionFiles") && endsWith fileName ".d.ts" = false →
  (getConfiguration (R:=list Diagnostic.t) config tslint fileName
     (prop config "configFile") w).1 = Normal (Some c) →
  excludes tslint c fileName = true →
  out.1 = Ok prior
  ∧ codeFixActions out.2 = delete fileName (codeFixActions w)
  ∧ ∃ evs, engineCalls out.2 = engineCalls w ++ evs ∧ Forall (λ ev, ¬ isLintCall ev) evs.
Proof.
  intros prior out Hgate Hignore Hconf Hexcl. subst out.
  rewrite getSemanticDiagnostics_stages. fold prior. rewrite Hgate, Hignore.
  pose proof (resolveConfiguration_outcome config tslint fileName prior
                (afterClear fileName w)) as Hout.
  rewrite (getConfiguration_cache_only config tslint fileName _ (afterClear fileName w) w eq_refl),
    Hconf, Hexcl in Hout.
  destruct (resolveConfiguration_frame config tslint fileName prior (afterClear fileName w))
    as (c1 & w2 & evs1 & Hres & Hreg2 & _ & _ & Hev2 & Hno & _).
  rewrite Hres in Hout. simpl in Hout. subst c1.
  unfold call, try_catch, bind. rewrite Hres. simpl. eauto.
Qed.

Lemma excluded_file_is_not_linted_witness :
  let w := initialWorld (sinkHost 0) in
  let prior := oldGetSemanticDiagnostics (sampleHost [typeError]) "api.gen.ts" in
  let out := getSemanticDiagnostics ∅ (sampleHost [typeError])
               (excludingEngine [fixableFailure]) "api.gen.ts" w in
  out.1 = Ok prior
  ∧ codeFixActions out.2 = delete "api.gen.ts" (codeFixActions w)
  ∧ ∃ evs, engineCalls out.2 = engineCalls w ++ evs ∧ Forall (λ ev, ¬ isLintCall ev) evs.
Proof.
  apply (excluded_file_is_not_linted ∅ (sampleHost [typeError])
           (excludingEngine [fixableFailure]) "api.gen.ts" excludingConfiguration
           (initialWorld (sinkHost 0))); reflexivity.
Defined.

(** X14: when the configuration lookup throws (no configuration file can
    be found or read, or the engine reports a load error), a call that
    passes the two earlier gates returns the host's diagnostics, leaves the
    file without a registry entry, never runs the linter, and its last log
    line carries the message of what was thrown. *)
Theorem configuration_failure_returns_prior config oldLS tslint fileName
    message toString stack (w : World) :
  let prior := oldGetSemanticDiagnostics oldLS fileName in
  let out := getSemanticDiagnostics config oldLS tslint fileName w in
  truthy (prop config "supressWhileTypeErrorsPresent")
    && bool_decide (0 < length prior)%nat = false →
  strictlyTrue (prop config "ignoreDefinitionFiles") && endsWith fileName ".d.ts" = false →
  (getConfiguration (R:=list Diagnostic.t) config tslint fileName
     (prop config "configFile") w).1 = Throw (ThrownValue message toString stack) →
  out.1 = Ok prior
  ∧ codeFixActions out.2 = delete fileName (codeFixActions w)
  ∧ last (logger out.2)
    = Some ("tslint: Cannot read tslint configuration - '"
            +:+ default "unknown error" message +:+ "'")
  ∧ ∃ evs, engineCalls out.2 = engineCalls w ++ evs ∧ Forall (λ ev, ¬ isLintCall ev) evs.
Proof.
  intros prior out Hgate Hignore Hconf. subst out.
  rewrite getSemanticDiagnostics_stages. fold prior. rewrite Hgate, Hignore.
  pose proof (resolveConfiguration_outcome config tslint fileName prior
                (afterClear fileName w)) as Hout.
  rewrite (getConfiguration_cache_only config tslint fileName _ (afterClear fileName w) w eq_refl),
    Hconf in Hout.
  destruct (resolveConfiguration_frame config tslint fileName prior (afterClear fileName w))
    as (c1 & w2 & evs1 & Hres & Hreg2 & _ & _ & Hev2 & Hno & _).
  rewrite Hres in Hout. simpl in Hout. destruct Hout as [-> Hlog].
  unfold call, try_catch, bind. rewrite Hres. simpl. eauto 10.
Qed.

Lemma configuration_failure_returns_prior_witness :
  let w := initialWorld (sinkHost 0) in
  let prior := oldGetSemanticDiagnostics (sampleHost [typeError]) "b.ts" in
  let out := getSemanticDiagnostics ∅ (sampleHost [typeError]) brokenConfigEngine "b.ts" w in
  out.1 = Ok prior
  ∧ codeFixActions out.2 = delete "b.ts" (codeFixActions w)
  ∧ last (logger out.2)
    = Some ("tslint: Cannot read tslint configuration - '"
            +:+ default "unknown error" (Some "invalid JSON") +:+ "'")
  ∧ ∃ evs, engineCalls out.2 = engineCalls w ++ evs ∧ Forall (λ ev, ¬ isLintCall ev) evs.
Proof.
  apply (configuration_failure_returns_prior ∅ (sampleHost [typeError]) brokenConfigEngine
           "b.ts" (Some "invalid JSON") "FatalError: invalid JSON" ""
           (initialWorld (sinkHost 0))); reflexivity.
Defined.

(** ** What the two operations hand back to the host *)

(** X15: the diagnostics operation never throws: it returns the host's
    diagnostics followed by diagnostics of its own.  Each added diagnostic
    has source [tslint], the source file of the queried document, an error
    code for which [registerCodeFixes] registered the code fix, and category
    warning or error; it is a warning whenever
    [alwaysShowRuleFailuresAsWarnings] is strictly [true]. *)
Theorem diagnostics_are_appended_and_tagged config oldLS tslint fileName (w : World) :
  let prior := oldGetSemanticDiagnostics oldLS fileName in
  ∃ added,
    (getSemanticDiagnostics config oldLS tslint fileName w).1 = Ok (prior ++ added)
    ∧ Forall (λ d,
        Diagnostic.source d = Some "tslint"
        ∧ Diagnostic.file d = getSourceFile oldLS fileName
        ∧ (∃ registration,
             registration ∈ registerCodeFixes cons []
             ∧ Diagnostic.code d ∈ errorCodes registration)
        ∧ (Diagnostic.category d = Warning ∨ Diagnostic.category d = Error)
        ∧ (strictlyTrue (prop config "alwaysShowRuleFailuresAsWarnings") = true →
           Diagnostic.category d = Warning)) added.
Proof.
  intros prior.
  destruct (getSemanticDiagnostics_spec config oldLS tslint fileName w)
    as (r & w' & evs & Hrun & _ & _ & _ & _ & _ & _ & Hr).
  fold prior in Hr. rewrite Hrun. simpl.
  destruct Hr as [->|(cfg & result & _ & ->)].
  { exists []. by rewrite app_nil_r. }
  eexists. split; [reflexivity|].
  apply Forall_fmap, Forall_forall. intros problem _. simpl.
  split; [done|]. split; [done|]. split.
  { eexists. split; [apply list_elem_of_here|]. simpl. apply list_elem_of_here. }
  unfold makeDiagnostic, strictlyTrue. simpl.
  destruct (prop config "alwaysShowRuleFailuresAsWarnings") as [| |[]| |];
    destruct (getRuleSeverity problem) as [severity|];
    try destruct (decide (severity = "error")) as [->|];
    repeat case_match; simplify_eq; split; auto; done.
Qed.

(** X16: the code-fixes operation only reads the plugin's state: the
    registry, the configuration cache, the current configuration, the
    console and the engine are as before whatever it returns, and what it
    returns to the host, when it returns, begins with the host's own
    fixes. *)
Theorem code_fixes_only_read_state config oldLS fileName start end_ errorCodes (w : World) :
  let prior := oldGetCodeFixesAtPosition oldLS fileName start end_ errorCodes in
  let out := getCodeFixesAtPosition config oldLS fileName start end_ errorCodes w in
  codeFixActions out.2 = codeFixActions w
  ∧ configCache out.2 = configCache w
  ∧ configuration out.2 = configuration w
  ∧ console_warn out.2 = console_warn w
  ∧ hostConsole out.2 = hostConsole w
  ∧ engineCalls out.2 = engineCalls w
  ∧ ∀ fixes, out.1 = Ok fixes → ∃ added, fixes = prior ++ added.
Proof.
  intros prior out. subst out.
  unfold getCodeFixesAtPosition, call, getCodeFixesAtPosition_body. fold prior.
  assert (∀ fixes, Ok prior = Ok fixes → ∃ added : list CodeAction, fixes = prior ++ added)
    as Hprior.
  { intros fixes [= <-]. exists []. by rewrite app_nil_r. }
  destruct (truthy _ && _); [done|].
  unfold bind, gets, logger_info, modify, liftR, ret, return_. simpl.
  destruct (codeFixActions w !! fileName) as [documentFixes|]; simpl; [|done].
  unfold addRuleFailureFix, addRuleFailureFixAll, addAllAutoFixable, addDisableRuleFix,
    addOpenConfigurationFix, rbind.
  destruct (JsMap.get _ documentFixes) as [problem|]; simpl.
  - destruct (problemToFileTextChange problem fileName) as [change|e]; simpl;
      [|by repeat split].
    destruct (ruleFailureChanges _ _ _ _) as [changes|e]; simpl; [|by repeat split].
    destruct (getNonOverlappingReplacements documentFixes) as [all|e];
      destruct (bool_decide (length changes < 2)%nat);
      destruct (getSourceFile oldLS fileName) as [file|]; simpl;
      repeat split; try done; intros fixes [= <-];
      rewrite <-?app_assoc; by eexists.
  - destruct (getNonOverlappingReplacements documentFixes) as [all|e]; simpl;
      repeat split; try done. intros fixes [= <-]. by eexists.
Qed.

(** ** The configuration cache *)

Lemma getConfiguration_hit {R} config tslint filePath configFileName c (w : World) :
  ConfigCache.filePath (configCache w) = Some filePath →
  ConfigCache.configuration (configCache w) = Some c →
  getConfiguration (R:=R) config tslint filePath configFileName w = (Normal (Some c), w).
Proof.
  intros Hpath Hconf. unfold getConfiguration, bind, gets, ret.
  rewrite Hpath, Hconf. rewrite bool_decide_true by eauto.
  by rewrite bool_decide_true.
Qed.

Lemma getConfiguration_result_cached {R} config tslint filePath configFileName c
    (w w' : World) :
  getConfiguration (R:=R) config tslint filePath configFileName w = (Normal (Some c), w') →
  ConfigCache.filePath (configCache w') = Some filePath
  ∧ ConfigCache.configuration (configCache w') = Some c.
Proof.
  unfold getConfiguration, bind, gets, modify, liftR, ret, throw.
  destruct (bool_decide (is_Some _)) eqn:Hsome; simpl.
  - destruct (bool_decide (_ = Some filePath)) eqn:Hpath; simpl.
    + intros [= Hc <-]. by apply bool_decide_eq_true in Hpath.
    + destruct (findConfigurationPath _ _ _) as [foundPath|e]; simpl; [|done].
      destruct (findConfiguration _ _ _) as [res|e]; simpl; [|done].
      destruct (ConfigurationLoadResult.error res) as [[|m s st]|];
        destruct (prop config "disableNoUnusedVariableRule") as [| |[]| |];
        destruct (ConfigurationLoadResult.results res); simpl; try done;
        by intros [= <- <-].
  - destruct (findConfigurationPath _ _ _) as [foundPath|e]; simpl; [|done].
    destruct (findConfiguration _ _ _) as [res|e]; simpl; [|done].
    destruct (ConfigurationLoadResult.error res) as [[|m s st]|];
      destruct (prop config "disableNoUnusedVariableRule") as [| |[]| |];
      destruct (ConfigurationLoadResult.results res); simpl; try done;
      by intros [= <- <-].
Qed.

(** X17: a configuration that was looked up for a file stays cached until
    a lookup replaces the cache slot: in every later state whose cache slot
    is still the one that the lookup left, a lookup for the same file
    returns that configuration, without a call to the engine and without a
    change of state, whatever configuration file name it asks for and
    whatever the options and the engine of the plugin instance that asks. *)
Theorem lookup_is_answered_from_cache {R} config tslint config' tslint'
    filePath configFileName configFileName' c (w w' later : World) :
  getConfiguration (R:=R) config tslint filePath configFileName w = (Normal (Some c), w') →
  configCache later = configCache w' →
  getConfiguration (R:=R) config' tslint' filePath configFileName' later
  = (Normal (Some c), later).
Proof.
  intros [Hpath Hconf]%getConfiguration_result_cached Hslot.
  apply getConfiguration_hit; by rewrite Hslot.
Qed.

Lemma lookup_is_answered_from_cache_witness :
  let first := getConfiguration (R:=list Diagnostic.t) ∅ (reportingEngine []) "a.ts"
                 JsUndefined (initialWorld (sinkHost 0)) in
  let later := (getCodeFixesAtPosition ∅ (sampleHost []) "a.ts" 0 5 [TSLINT_ERROR_CODE]
                  first.2).2 in
  getConfiguration (R:=list Diagnostic.t) supressConfig crashingEngine "a.ts"
    (JsString "other.json") later
  = (Normal (Some {| rules := deleteNoUnusedVariable (rules sampleConfiguration);
                     jsRules := deleteNoUnusedVariable (jsRules sampleConfiguration);
                     linterOptions := None |}), later).
Proof.
  intros first later.
  apply (lookup_is_answered_from_cache ∅ (reportingEngine []) supressConfig crashingEngine
           "a.ts" JsUndefined (JsString "other.json") _ (initialWorld (sinkHost 0))
           first.2 later); reflexivity.
Defined.

(** ** Setting up the plugin *)

(** X18: [fixRelativeConfigFilePath] throws exactly when [configFile] is
    truthy and not a string.  When it returns, it has changed no option but
    [configFile]: a block whose [configFile] is falsy comes back as it is,
    and a string names the same file afterwards, absolute as it was or
    joined to the project root. *)
Theorem fixRelativeConfigFilePath_only_configFile path config projectRoot :
  let outcome := fixRelativeConfigFilePath path config projectRoot in
  ((∃ e, outcome = Threw e)
   ↔ truthy (prop config "configFile") = true
     ∧ ∀ configFile, prop config "configFile" ≠ JsString configFile)
  ∧ ∀ config',
      outcome = Ok config' →
      (∀ name, name ≠ "configFile" → config' !! name = config !! name)
      ∧ match prop config "configFile" with
        | JsString configFile =>
            prop config' "configFile"
            = JsString (if bool_decide (configFile = "") || isAbsolute path configFile
                        then configFile else join path projectRoot configFile)
        | _ => config' = config
        end.
Proof.
  unfold fixRelativeConfigFilePath.
  destruct (prop config "configFile") as [| |[]|n|configFile] eqn:Hprop; simpl.
  - split; [split; [by intros [e ?]|by intros [? _]]|]. by intros config' [= <-].
  - split; [split; [by intros [e ?]|by intros [? _]]|]. by intros config' [= <-].
  - split; [|done]. split; [done|]. by eexists.
  - split; [split; [by intros [e ?]|by intros [? _]]|]. by intros config' [= <-].
  - destruct (n =? 0); simpl.
    + split; [split; [by intros [e ?]|by intros [? _]]|]. by intros config' [= <-].
    + split; [|done]. split; [done|]. by eexists.
  - split.
    { split.
      - intros [e He]. by repeat case_match.
      - intros [_ Hne]. by destruct (Hne configFile). }
    intros config'. case_bool_decide; simpl; [intros [= <-]; by rewrite Hprop|].
    destruct (isAbsolute path configFile); intros [= <-]; [by rewrite Hprop|].
    split.
    + intros name Hne. by rewrite lookup_insert_ne.
    + unfold prop. by rewrite lookup_insert_eq.
Qed.

(** X19: when joining to the project root gives an absolute name, as
    [path.join] does for an absolute root, fixing a configuration block a
    second time changes nothing. *)
Theorem fixRelativeConfigFilePath_idempotent path config projectRoot config' :
  (∀ relative, isAbsolute path (join path projectRoot relative) = true) →
  fixRelativeConfigFilePath path config projectRoot = Ok config' →
  fixRelativeConfigFilePath path config' projectRoot = Ok config'.
Proof.
  intros Habs. unfold fixRelativeConfigFilePath.
  destruct (truthy (prop config "configFile")) eqn:Htruthy; simpl.
  2:{ intros [= <-]. by rewrite Htruthy. }
  destruct (prop config "configFile") as [| |b|n|configFile] eqn:Hprop; try done.
  destruct (isAbsolute path configFile) eqn:Hfile.
  - intros [= <-]. by rewrite Hprop, Htruthy, Hfile.
  - intros [= <-]. unfold prop at 1 2. rewrite lookup_insert_eq. simpl.
    rewrite Habs. by case_bool_decide.
Qed.

Lemma fixRelativeConfigFilePath_idempotent_witness :
  fixRelativeConfigFilePath slashPath
    (<["configFile" := JsString ("/proj" +:+ "/" +:+ "tslint.json")]>
       {[ "configFile" := JsString "tslint.json" ]}) "/proj"
  = Ok (<["configFile" := JsString ("/proj" +:+ "/" +:+ "tslint.json")]>
          {[ "configFile" := JsString "tslint.json" ]}).
Proof.
  apply (fixRelativeConfigFilePath_idempotent slashPath
           {[ "configFile" := JsString "tslint.json" ]} "/proj").
  - intros relative. reflexivity.
  - reflexivity.
Defined.

(** X20: the decorated language service: under the names of the two
    operations of the plugin it answers with the plugin's operations, also
    when the host has none of that name; under every other name it answers
    as the host's language service does, and has an operation exactly when
    the host has one. *)
Theorem other_operations_pass_through {Args Value : Type}
    (oldLS : gmap string (Args → Value)) (diagnostics codeFixes : Args → Value)
    (name : string) (args : Args) :
  Proxy.invoke oldLS diagnostics codeFixes (Proxy.create oldLS) name args
  = if decide (name = "getCodeFixesAtPosition") then Ok (codeFixes args)
    else if decide (name = "getSemanticDiagnostics") then Ok (diagnostics args)
    else match oldLS !! name with
         | Some operation => Ok (operation args)
         | None => Threw (TypeError "proxy[name] is not a function")
         end.
Proof.
  unfold Proxy.invoke, Proxy.create.
  destruct (decide (name = "getCodeFixesAtPosition")) as [->|Hfix].
  { by rewrite lookup_insert_eq. }
  rewrite lookup_insert_ne by done.
  destruct (decide (name = "getSemanticDiagnostics")) as [->|Hdiag].
  { by rewrite lookup_insert_eq. }
  rewrite lookup_insert_ne by done.
  rewrite map_lookup_imap.
  by destruct (oldLS !! name) as [operation|] eqn:Hop; simpl; [rewrite Hop|].
Qed.

(** ** The log *)

Lemma recordCodeAction_log {R} problem file (w : World) :
  logger (recordCodeAction (R:=R) problem file w).2 = logger w.
Proof.
  unfold recordCodeAction, bind, gets, modify, throw, ret.
  destruct (getFix problem) as [f|]; [destruct (replacementsAreEmpty f)|];
    try done; by destruct file.
Qed.

Lemma pushDiagnostics_log {R} config file problems diagnostics (w : World) :
  logger (pushDiagnostics (R:=R) config file problems diagnostics w).2 = logger w.
Proof.
  revert diagnostics w.
  induction problems as [|problem rest IH]; intros diagnostics w; simpl; [done|].
  unfold bind.
  pose proof (recordCodeAction_log (R:=R) problem file w) as Hlog.
  destruct (recordCodeAction problem file w) as [[[]|r|e] w1]; simpl in *; try done.
  by rewrite IH.
Qed.

Lemma reportFailures_log config oldLS tslint fileName prior result (w : World) :
  logger (reportFailures config oldLS tslint fileName prior result w).2 = logger w.
Proof.
  unfold reportFailures, bind, return_, ret.
  destruct (bool_decide (0 < length (failures result))%nat); [|done].
  destruct (bool_decide (0 < length _)%nat); [|done].
  pose proof (pushDiagnostics_log (R:=list Diagnostic.t) config
                (getSourceFile oldLS fileName)
                (filterProblemsForDocument tslint fileName (failures result)) prior w) as Hlog.
  by destruct (pushDiagnostics _ _ _ _ _) as [[d|r|e] w1].
Qed.

Lemma logServiceError_log {R} oldLS e (w : World) :
  logger w `prefix_of` logger (logServiceError oldLS (R:=R) e w).2.
Proof.
  destruct e as [|m s st]; simpl; [done|].
  unfold bind, logger_info, modify. simpl. rewrite <-app_assoc. by apply prefix_app_r.
Qed.

Lemma forEach_captured_log {R} (warnings : list string) (w : World) :
  console_warn w = sinkCaptureWarnings →
  logger (forEach (R:=R) console_warn_call warnings w).2
  = logger w ++ ((λ message, "[tslint] " +:+ message) <$> warnings).
Proof.
  revert w. induction warnings as [|message warnings IH]; intros w Hsink; simpl.
  - by rewrite app_nil_r.
  - unfold bind, console_warn_call at 1. rewrite Hsink.
    unfold captureWarnings, logger_info, modify.
    rewrite IH by done. simpl. by rewrite <-app_assoc.
Qed.

(** The lint run writes the warnings of the engine to the log. *)
Lemma lintFile_log tslint fileName prior (w : World) :
  logger w ++ ((λ message, "[tslint] " +:+ message)
               <$> (lint tslint fileName (configuration w)).1)
  `prefix_of` logger (lintFile tslint fileName prior w).2.
Proof.
  unfold lintFile, runLinter, try_finally, try_catch, bind, gets, modify. simpl.
  destruct (lint tslint fileName (configuration w)) as [warnings outcome]. simpl.
  pose proof (forEach_captured_log (R:=list Diagnostic.t) warnings
    (add_engineCall (CalledLint fileName (configuration w) outcome)
       (set_console_warn sinkCaptureWarnings w)) eq_refl) as Hlog.
  destruct (forEach_console_warn_frame (R:=list Diagnostic.t) warnings
    (add_engineCall (CalledLint fileName (configuration w) outcome)
       (set_console_warn sinkCaptureWarnings w))) as (w1 & Hrun & _).
  rewrite Hrun in Hlog |- *. simpl in Hlog |- *.
  destruct outcome as [result|[|m s st]]; simpl; rewrite Hlog; try done.
  by apply prefix_app_r.
Qed.

(** X21: what the engine writes with [console.warn] during a lint run goes
    to the plugin's log, each message behind [[tslint] ], and stays there to
    the end of the call; the host's console receives nothing. *)
Theorem engine_warnings_go_to_the_log config oldLS tslint fileName (w : World) :
  let out := getSemanticDiagnostics config oldLS tslint fileName w in
  hostConsole out.2 = hostConsole w
  ∧ ∃ evs,
      engineCalls out.2 = engineCalls w ++ evs
      ∧ ∀ f cfg outcome message,
          CalledLint f cfg outcome ∈ evs →
          message ∈ (lint tslint f cfg).1 →
          ("[tslint] " +:+ message) ∈ logger out.2.
Proof.
  intros out. split.
  { subst out.
    destruct (getSemanticDiagnostics_spec config oldLS tslint fileName w)
      as (r & w' & evs & -> & _ & Hhost & _). done. }
  subst out. rewrite getSemanticDiagnostics_stages.
  destruct (truthy _ && _).
  { exists []. rewrite app_nil_r. split; [done|]. intros ???? Hin. by apply elem_of_nil in Hin. }
  destruct (strictlyTrue _ && endsWith _ _).
  { exists []. rewrite app_nil_r. split; [done|]. intros ???? Hin. by apply elem_of_nil in Hin. }
  destruct (call _ _) as [r w'] eqn:Hcall. simpl.
  unfold call, try_catch, bind in Hcall.
  destruct (resolveConfiguration_frame config tslint fileName
              (oldGetSemanticDiagnostics oldLS fileName) (afterClear fileName w))
    as (c1 & w2 & evs1 & Hres & _ & _ & _ & Hev2 & Hno & Hc1).
  rewrite Hres in Hcall. simpl in Hev2.
  assert (∀ f cfg outcome, CalledLint f cfg outcome ∉ evs1) as Hno1.
  { intros f cfg outcome Hin. rewrite Forall_forall in Hno. by apply (Hno _ Hin). }
  destruct Hc1 as [->|[->|[msg ->]]]; simpl in Hcall.
  2:{ injection Hcall as <- <-. exists evs1. split; [done|].
      intros ???? Hin. by apply Hno1 in Hin. }
  2:{ injection Hcall as <- <-. exists evs1. split; [done|].
      intros ???? Hin. by apply Hno1 in Hin. }
  destruct (lintFile_frame tslint fileName (oldGetSemanticDiagnostics oldLS fileName) w2)
    as (c2 & w3 & outcome & Hlint & _ & _ & _ & Hev3 & Hout).
  pose proof (lintFile_log tslint fileName (oldGetSemanticDiagnostics oldLS fileName) w2)
    as Hlog.
  rewrite Hlint in Hcall, Hlog. simpl in Hlog.
  assert (logger w3 `prefix_of` logger w' ∧ engineCalls w' = engineCalls w3) as [Hgrow Hsame].
  { destruct outcome as [result|[|m s st]].
    - subst c2.
      destruct (reportFailures_frame config oldLS tslint fileName
                  (oldGetSemanticDiagnostics oldLS fileName) result w3)
        as (c3 & w4 & Hrep & _ & _ & Hev4 & _ & _ & Hc3).
      pose proof (reportFailures_log config oldLS tslint fileName
                    (oldGetSemanticDiagnostics oldLS fileName) result w3) as Hlog4.
      rewrite Hrep in Hcall, Hlog4. simpl in Hlog4.
      destruct Hc3 as [->|[->|[msg ->]]]; simpl in Hcall; injection Hcall as <- <-; simpl.
      + by rewrite Hlog4.
      + by rewrite Hlog4.
      + split; [|done]. rewrite <-Hlog4, <-app_assoc. by apply prefix_app_r.
    - destruct Hout as [msg ->]. simpl in Hcall. injection Hcall as <- <-. simpl.
      split; [|done]. rewrite <-app_assoc. by apply prefix_app_r.
    - destruct Hout as [-> _]. simpl in Hcall. by injection Hcall as <- <-. }
  exists (evs1 ++ [CalledLint fileName (configuration w2) outcome]).
  split; [by rewrite Hsame, Hev3, Hev2, <-app_assoc|].
  intros f cfg o message [Hin|Hin]%elem_of_app Hmsg; [by apply Hno1 in Hin|].
  apply list_elem_of_singleton in Hin. injection Hin as -> -> ->.
  eapply elem_of_prefix; [|exact Hgrow].
  eapply elem_of_prefix; [|exact Hlog].
  apply elem_of_app. right. apply list_elem_of_fmap. by exists message.
Qed.
